(** * Bit packer of [encode.c]: model and verification

    The program packs a byte stream into a bit stream with a per-symbol
    table of variable-length codewords.  This file embeds [encode.c] as
    Rocq functions and states the properties of the packing routine.

    Conventions of the embedding:
    - a [word_t] ([uint8_t]) is a [Z] in [0, 2^W); conversions to a C type
      write the wrap-around out ([to_word], [to_size], [to_int]);
    - undefined behaviour of the C program (an array index outside its
      array, a shift the C standard leaves undefined) is the result
      [Undefined]; every other run is [Done v];
    - [putword] appends to [stdout], modelled as the list of words written,
      in order;
    - whether plain [char] is signed is implementation-defined in C: the
      model takes it as the parameter [char_signed]. *)

From Stdlib Require Import ZArith List Bool Lia.
Import ListNotations.

Local Open Scope Z_scope.

(** ** Results of C evaluations *)

Inductive result (A : Type) : Type :=
| Done (a : A)
| Undefined.

Arguments Done {A} a.
Arguments Undefined {A}.

Definition bind {A B : Type} (r : result A) (k : A -> result B) : result B :=
  match r with
  | Done a => k a
  | Undefined => Undefined
  end.

Notation "x <- r ;; k" := (bind r (fun x => k))
  (at level 61, r at next level, right associativity).

(** A run completes when it is not undefined. *)
Definition completes {A : Type} (r : result A) : Prop :=
  exists a, r = Done a.

(** ** C types and constants of [encode.c] *)

(** [#define MAX_CODEWORD_BITS 256] *)
Definition MAX_CODEWORD_BITS : Z := 256.

(** [typedef uint8_t word_t;]: a word is a [Z] in [0, 2^W). *)
Abbreviation word_t := Z (only parsing).
Definition sizeof_word_t : Z := 1.

(** [#define W (sizeof(word_t) * 8)] *)
Definition W : Z := sizeof_word_t * 8.

(** Conversion to [word_t] (unsigned, 8 bits). *)
Definition to_word (x : Z) : word_t := x mod 2 ^ W.

(** Conversion to [size_t] (unsigned, 64 bits). *)
Definition to_size (x : Z) : Z := x mod 2 ^ 64.

(** Conversion to [int] (32 bits, two's complement wrap-around). *)
Definition INT_BITS : Z := 32.
Definition to_int (x : Z) : Z := (x + 2 ^ 31) mod 2 ^ 32 - 2 ^ 31.
Definition INT_MAX : Z := 2 ^ 31 - 1.

(** [i++] on an [int]: signed overflow is undefined, so the increment is
    defined only below [INT_MAX]. *)
Definition incr_int (i : Z) : result Z :=
  if i <? INT_MAX then Done (i + 1) else Undefined.

(** The shifts of lines 44, 45 and 52.  Their left operand is a [word_t],
    promoted to [int]; the result has type [int].  C leaves a shift
    undefined when the count is negative or at least the width of the
    promoted operand, and a left shift also when the result does not fit. *)
Definition shl_int (x n : Z) : result Z :=
  if (0 <=? n) && (n <? INT_BITS) && (0 <=? x) && (x * 2 ^ n <? 2 ^ 31)
  then Done (Z.shiftl x n)
  else Undefined.

Definition shr_int (x n : Z) : result Z :=
  if (0 <=? n) && (n <? INT_BITS)
  then Done (Z.shiftr x n)
  else Undefined.

(** [arr[i]]: defined only inside the array. *)
Definition index {A : Type} (arr : list A) (i : Z) : result A :=
  if i <? 0 then Undefined
  else match nth_error arr (Z.to_nat i) with
       | Some a => Done a
       | None => Undefined
       end.

(** [typedef struct { size_t len; word_t bits[MAX_CODEWORD_BITS / W]; } codeword_t;] *)
Record codeword_t : Type := mk_codeword {
  len : Z;
  bits : list word_t
}.

(** Number of elements of the array [bits]. *)
Definition BITS_WORDS : Z := MAX_CODEWORD_BITS / W.

(** [typedef codeword_t code_t[256];] *)
Definition code_t : Type := list codeword_t.
Definition CODE_ENTRIES : Z := 256.

(** The two locals [buf] and [offset] of [encode]. *)
Record accumulator : Type := mk_acc {
  buf : word_t;
  offset : Z
}.

(** [word_t buf = 0; int offset = 0;] (lines 27-28) *)
Definition acc_init : accumulator := {| buf := 0; offset := 0 |}.

(** ** The packing routine *)

Section Encoder.

(** Whether plain [char] is a signed type (as on x86-64) or not. *)
Variable char_signed : bool.

(** [char sym = input[i];] where [input] holds the raw byte [b]. *)
Definition char_value (b : Z) : Z :=
  if char_signed && (128 <=? b) then b - 256 else b.

(** [codeword_t *cw = &code[sym];] (line 33) *)
Definition lookup (code : code_t) (b : Z) : result codeword_t :=
  index code (char_value b).

(** [(offset + cw->len) / W] converted to [int] (line 38): the sum and the
    quotient are computed in [size_t]. *)
Definition num_words (offset : Z) (cw : codeword_t) : Z :=
  to_int (to_size (offset + len cw) / W).

(** Right operand of [>>] on line 45: [W - offset], in [size_t]. *)
Definition carry_shift (offset : Z) : Z := to_size (W - offset).

(** [buf = cw->bits[w] >> (W - offset);] (line 45), for [x = cw->bits[w]]. *)
Definition carry (x : word_t) (offset : Z) : result word_t :=
  lo <- shr_int x (carry_shift offset) ;;
  Done (to_word lo).

(** Lines 43-46: the loop [for (w = ...; w < num_words; w++)] with [trips]
    iterations left.  Returns the buffer after the loop and the words
    written. *)
Fixpoint copy_words (cw : codeword_t) (offset : Z) (trips : nat) (w : Z)
    (buf : word_t) : result (word_t * list word_t) :=
  match trips with
  | O => Done (buf, [])
  | S trips' =>
      x <- index (bits cw) w ;;
      hi <- shl_int x offset ;;
      buf' <- carry x offset ;;
      r <- copy_words cw offset trips' (w + 1) buf' ;;
      Done (fst r, to_word (Z.lor buf hi) :: snd r)
  end.

(** Lines 31-55: the body of the loop over the input, for one symbol. *)
Definition merge (code : code_t) (a : accumulator) (b : Z)
    : result (accumulator * list word_t) :=
  cw <- lookup code b ;;
  let n := num_words (offset a) cw in
  r <- copy_words cw (offset a) (Z.to_nat n) 0 (buf a) ;;
  x <- index (bits cw) n ;;
  hi <- shl_int x (offset a) ;;
  Done ({| buf := to_word (Z.lor (fst r) hi);
           offset := to_int (to_size (offset a + len cw) mod W) |},
        snd r).

(** Lines 30-56: [for(int i = ...; i < len; i++)], entered with the value
    [i] of the counter and the symbols [input[i]], ..., [input[len - 1]]
    still to read: the test [i < len] holds exactly when some are left.
    After the body the counter is incremented as an [int]. *)
Fixpoint encode_loop (code : code_t) (a : accumulator) (i : Z)
    (input : list Z) : result (accumulator * list word_t) :=
  match input with
  | [] => Done (a, [])
  | b :: rest =>
      r1 <- merge code a b ;;
      i' <- incr_int i ;;
      r2 <- encode_loop code (fst r1) i' rest ;;
      Done (fst r2, snd r1 ++ snd r2)
  end.

(** Lines 58-61: [if (offset > 0) putword(buf);].  The locals are not
    assigned. *)
Definition flush (a : accumulator) : accumulator * list word_t :=
  (a, if 0 <? offset a then [buf a] else []).

(** [void encode(code_t code, char *input, size_t len)]: the words written
    by one call. *)
Definition encode (code : code_t) (input : list Z) : result (list word_t) :=
  r <- encode_loop code acc_init 0 input ;;
  Done (snd r ++ snd (flush (fst r))).

(** The loop of [main] (lines 86-88): one call of [encode] for each chunk
    that [read] delivers. *)
Fixpoint main_loop (code : code_t) (chunks : list (list Z))
    : result (list word_t) :=
  match chunks with
  | [] => Done []
  | chunk :: rest =>
      out1 <- encode code chunk ;;
      out2 <- main_loop code rest ;;
      Done (out1 ++ out2)
  end.

End Encoder.

(** ** The table built by [main] *)

(** An entry after [memset(code, 0, sizeof(code))]. *)
Definition zero_codeword : codeword_t :=
  {| len := 0; bits := repeat 0 (Z.to_nat BITS_WORDS) |}.

Fixpoint update_nth {A : Type} (l : list A) (i : nat) (f : A -> A) : list A :=
  match l, i with
  | [], _ => []
  | x :: l', O => f x :: l'
  | x :: l', S i' => x :: update_nth l' i' f
  end.

(** [code[sym].len = n; code[sym].bits[0] = b0;] *)
Definition assign (sym : Z) (n : Z) (b0 : word_t) (code : code_t) : code_t :=
  update_nth code (Z.to_nat sym)
    (fun cw => {| len := n; bits := update_nth (bits cw) 0 (fun _ => b0) |}).

(** Lines 67-81. *)
Definition code_main : code_t :=
  assign 70 5 28 (assign 69 5 12 (assign 68 4 4 (assign 67 3 0
    (assign 66 2 2 (assign 65 1 1
      (repeat zero_codeword (Z.to_nat CODE_ENTRIES))))))).

(** The table of [main] with don't-care bits set in the entry of ['A']:
    [code['A'].len = 1; code['A'].bits[0] = 0xFF]. *)
Definition code_dirty : code_t := assign 65 1 255 code_main.

(** The table of [main] with a codeword of the maximal documented length:
    [code['A'].len = MAX_CODEWORD_BITS]. *)
Definition code_long : code_t := assign 65 MAX_CODEWORD_BITS 1 code_main.

(** The table of [main] with a codeword of 250 bits for ['A']:
    [code['A'].len = 250]. *)
Definition code_wide : code_t := assign 65 250 1 code_main.

(** The table of [main] with a content bit set in the unassigned entry of
    ['Z']: [code['Z'].len = 0; code['Z'].bits[0] = 1]. *)
Definition code_stray : code_t := assign 90 0 1 code_main.

(** The table of [main] with a content bit set far above the codeword of
    ['A']: [code['A'].bits[1] = 2], that is bit 9 of a 1-bit codeword. *)
Definition code_far : code_t :=
  update_nth code_main 65
    (fun cw => {| len := len cw; bits := update_nth (bits cw) 1 (fun _ => 2) |}).

(** ** Vocabulary of the specification *)

(** Tables that have the C type [code_t]: 256 entries, each with
    [MAX_CODEWORD_BITS / W] words in the range of [word_t], and a length in
    [0, MAX_CODEWORD_BITS] (the bound documented on lines 6-8). *)
Definition wf_word (x : Z) : bool := (0 <=? x) && (x <? 2 ^ W).

Definition wf_codeword (cw : codeword_t) : bool :=
  (0 <=? len cw) && (len cw <=? MAX_CODEWORD_BITS)
  && (Z.of_nat (length (bits cw)) =? BITS_WORDS)
  && forallb wf_word (bits cw).

Definition wf_code (code : code_t) : bool :=
  (Z.of_nat (length code) =? CODE_ENTRIES) && forallb wf_codeword code.

(** Bit [k] of a codeword lives in [bits[k / W]] at position [k % W]. *)
Definition cw_bit (cw : codeword_t) (k : Z) : bool :=
  Z.testbit (nth (Z.to_nat (k / W)) (bits cw) 0) (k mod W).

(** The integers [from, from + 1, ..., from + count - 1]. *)
Definition zrange (from : Z) (count : Z) : list Z :=
  map (fun i => from + Z.of_nat i) (seq 0 (Z.to_nat count)).

(** The content bits at positions [>= len] are zero. *)
Definition dont_care_zero (cw : codeword_t) : bool :=
  forallb (fun k => negb (cw_bit cw k))
          (zrange (len cw) (MAX_CODEWORD_BITS - len cw)).

Definition dont_care_zero_code (code : code_t) : bool :=
  forallb dont_care_zero code.

(** Two codewords with the same length and the same content bits below
    position [len + extra]. *)
Definition agree_below (extra : Z) (cw1 cw2 : codeword_t) : bool :=
  (len cw1 =? len cw2)
  && forallb (fun k => Bool.eqb (cw_bit cw1 k) (cw_bit cw2 k))
             (zrange 0 (len cw1 + extra)).

Definition code_agree_below (extra : Z) (code1 code2 : code_t) : bool :=
  (Nat.eqb (length code1) (length code2))
  && forallb (fun p => agree_below extra (fst p) (snd p)) (combine code1 code2).

(** The bits of a word and of a list of words, least significant bit
    first, in word order. *)
Definition word_bits (w : word_t) : list bool :=
  map (fun j => Z.testbit w (Z.of_nat j)) (seq 0 (Z.to_nat W)).

Definition words_bits (ws : list word_t) : list bool :=
  flat_map word_bits ws.

(** The [len] bits of a codeword, least significant bit first. *)
Definition codeword_bits (cw : codeword_t) : list bool :=
  map (fun k => cw_bit cw (Z.of_nat k)) (seq 0 (Z.to_nat (len cw))).

(** The valid bits of the accumulator: positions [0, offset). *)
Definition acc_bits (a : accumulator) : list bool :=
  map (fun j => Z.testbit (buf a) (Z.of_nat j)) (seq 0 (Z.to_nat (offset a))).

(** Zero bits up to the next multiple of [W]. *)
Definition padding (nbits : Z) : list bool :=
  repeat false (Z.to_nat ((W - nbits mod W) mod W)).


(** The input has at most [INT_MAX] symbols. *)
Definition fits_int (input : list Z) : bool :=
  Z.of_nat (length input) <=? INT_MAX.

Section Vocabulary.

Variable char_signed : bool.
Variable code : code_t.

(** The symbol has a codeword, of positive length. *)
Definition assigned (b : Z) : bool :=
  match lookup char_signed code b with
  | Done cw => 0 <? len cw
  | Undefined => false
  end.

(** Length of the symbol's codeword. *)
Definition sym_len (b : Z) : Z :=
  match lookup char_signed code b with
  | Done cw => len cw
  | Undefined => 0
  end.

(** The symbol's codeword leaves a spare word in [bits]:
    [len <= MAX_CODEWORD_BITS - W]. *)
Definition spare_word (b : Z) : bool :=
  sym_len b <=? MAX_CODEWORD_BITS - W.

(** Entered with the offset [o], every merge of the input finds
    [offset + len] below [MAX_CODEWORD_BITS]. *)
Fixpoint tails_fit (o : Z) (input : list Z) : bool :=
  match input with
  | [] => true
  | b :: rest =>
      (o + sym_len b <? MAX_CODEWORD_BITS)
      && tails_fit ((o + sym_len b) mod W) rest
  end.

(** Sum of the codeword lengths of the input. *)
Definition total_bits (input : list Z) : Z :=
  fold_right (fun b s => sym_len b + s) 0 input.

(** Concatenation of the codewords of the input. *)
Definition stream_bits (input : list Z) : list bool :=
  flat_map (fun b => match lookup char_signed code b with
                     | Done cw => codeword_bits cw
                     | Undefined => []
                     end) input.

(** States of the accumulator that the loop of [encode] can reach. *)
Inductive reachable : accumulator -> Prop :=
| reach_init : reachable acc_init
| reach_merge a b a' out :
    reachable a ->
    merge char_signed code a b = Done (a', out) ->
    reachable a'.

End Vocabulary.

(** The carry as the specification words it: zero when [offset] is zero,
    else the word shifted right by [W - offset]. *)
Definition carry_spec (x : word_t) (offset : Z) : word_t :=
  if offset =? 0 then 0 else Z.shiftr x (W - offset).

(** ** Proof devices *)

(** Value of a list of words read as one little-endian number. *)
Fixpoint words_val (ws : list word_t) : Z :=
  match ws with
  | [] => 0
  | w :: ws' => w + 2 ^ W * words_val ws'
  end.

(** The content of a codeword, as one number. *)
Definition content (cw : codeword_t) : Z := words_val (bits cw).

(** The merges of the loop of lines 30-56 without its counter. *)
Fixpoint pack_loop (cs : bool) (code : code_t) (a : accumulator)
    (input : list Z) : result (accumulator * list word_t) :=
  match input with
  | [] => Done (a, [])
  | b :: rest =>
      r1 <- merge cs code a b ;;
      r2 <- pack_loop cs code (fst r1) rest ;;
      Done (fst r2, snd r1 ++ snd r2)
  end.

(** The words of [pack_loop] from the initial accumulator, followed by the
    last word of lines 58-61. *)
Definition pack_words (cs : bool) (code : code_t) (input : list Z)
    : result (list word_t) :=
  r <- pack_loop cs code acc_init input ;;
  Done (snd r ++ snd (flush (fst r))).

(** The pending bits of a merge: the buffer followed by the content. *)
Definition pending (b : word_t) (o : Z) (c : Z) : Z :=
  Z.lor b (Z.shiftl c o).

(** The first [n] words of the number [v]. *)
Definition bytes_of (v : Z) (n : nat) : list word_t :=
  map (fun j => to_word (Z.shiftr v (W * Z.of_nat j))) (seq 0 n).

(** The bits of [v] at positions [from, from + count). *)
Definition bits_of (v : Z) (from count : nat) : list bool :=
  map (fun k => Z.testbit v (Z.of_nat k)) (seq from count).

(** The accumulator holds values of its C types. *)
Definition acc_typed (a : accumulator) : Prop :=
  0 <= offset a < W /\ 0 <= buf a < 2 ^ W.

(** The accumulator invariant: the offset is in [0, W) and the buffer is
    zero at and above the offset. *)
Definition acc_ok (a : accumulator) : Prop :=
  0 <= offset a < W /\ forall k, offset a <= k -> Z.testbit (buf a) k = false.

(** ** Further vocabulary *)

(** The accumulator invariant, decided: the offset is in [0, W) and the
    buffer is below [2 ^ offset]. *)
Definition acc_okb (a : accumulator) : bool :=
  (0 <=? offset a) && (offset a <? W)
  && (0 <=? buf a) && (buf a <? 2 ^ offset a).

(** The accumulator holds values of its C types, decided. *)
Definition acc_typedb (a : accumulator) : bool :=
  (0 <=? offset a) && (offset a <? W) && (0 <=? buf a) && (buf a <? 2 ^ W).

(** A byte, as [read] delivers it. *)
Definition is_byte (b : Z) : bool := (0 <=? b) && (b <? 256).

(** A byte whose value as a plain [char] is not negative. *)
Definition is_plain_byte (cs : bool) (b : Z) : bool :=
  (0 <=? b) && (b <? (if cs then 128 else 256)).

(** Every entry of the table leaves a spare word in [bits]. *)
Definition all_spare (code : code_t) : bool :=
  forallb (fun cw => len cw <=? MAX_CODEWORD_BITS - W) code.

(** [code[sym]] is inside the table. *)
Definition in_table (cs : bool) (code : code_t) (b : Z) : bool :=
  match lookup cs code b with
  | Done _ => true
  | Undefined => false
  end.

(** The codewords of the chunk fill whole words. *)
Definition aligned (cs : bool) (code : code_t) (chunk : list Z) : bool :=
  total_bits cs code chunk mod W =? 0.

(** Every chunk but the last is [aligned]. *)
Fixpoint aligned_chunks (cs : bool) (code : code_t) (chunks : list (list Z))
    : bool :=
  match chunks with
  | [] => true
  | chunk :: rest =>
      match rest with
      | [] => true
      | _ :: _ => aligned cs code chunk && aligned_chunks cs code rest
      end
  end.

(** [p] is a prefix of [l]. *)
Fixpoint prefixb (p l : list bool) : bool :=
  match p, l with
  | [], _ => true
  | _ :: _, [] => false
  | x :: p', y :: l' => Bool.eqb x y && prefixb p' l'
  end.

(** No codeword of positive length is a prefix of the codeword of another
    entry. *)
Definition prefix_free (code : code_t) : bool :=
  forallb (fun i =>
    forallb (fun j =>
      let ci := nth i code zero_codeword in
      let cj := nth j code zero_codeword in
      Nat.eqb i j || negb (0 <? len ci) || negb (0 <? len cj)
      || negb (prefixb (codeword_bits ci) (codeword_bits cj)))
      (seq 0 (length code)))
    (seq 0 (length code)).


(** * Verification *)

(** ** The scenarios of the reference table

    With the table of [main]: ["A"] gives [0x01], ["AB"] gives [0x05], and
    eight times ["A"] gives [0xFF] and leaves the offset at 0. *)

Example encode_A (cs : bool) : encode cs code_main [65] = Done [1].
Proof. destruct cs; reflexivity. Qed.

Example encode_AB (cs : bool) : encode cs code_main [65; 66] = Done [5].
Proof. destruct cs; reflexivity. Qed.

Example encode_8A (cs : bool) :
  encode_loop cs code_main acc_init 0 (repeat 65 8)
  = Done ({| buf := 0; offset := 0 |}, [255])
  /\ encode cs code_main (repeat 65 8) = Done [255].
Proof. destruct cs; split; reflexivity. Qed.

(** ** Arithmetic of the C conversions *)

Lemma W_eq : W = 8.
Proof. reflexivity. Qed.

Lemma to_word_range x : 0 <= to_word x < 2 ^ W.
Proof. unfold to_word. apply Z.mod_pos_bound. reflexivity. Qed.

Lemma to_word_small x : 0 <= x < 2 ^ W -> to_word x = x.
Proof. intros H. unfold to_word. apply Z.mod_small. exact H. Qed.

Lemma testbit_to_word x j :
  Z.testbit (to_word x) j = (j <? W) && Z.testbit x j.
Proof. unfold to_word. apply Z.testbit_mod_pow2. rewrite W_eq. lia. Qed.

Lemma testbit_high x n k :
  0 <= x < 2 ^ n -> 0 <= n <= k -> Z.testbit x k = false.
Proof.
  intros Hx Hk. rewrite <- (Z.mod_small x (2 ^ n)) by exact Hx.
  apply Z.mod_pow2_bits_high. exact Hk.
Qed.

Lemma bound_of_testbit x n :
  0 <= n -> (forall k, n <= k -> Z.testbit x k = false) -> 0 <= x < 2 ^ n.
Proof.
  intros Hn Hhigh.
  assert (E : x mod 2 ^ n = x).
  { apply Z.bits_inj'. intros k Hk. rewrite Z.testbit_mod_pow2 by exact Hn.
    destruct (Z.ltb_spec k n) as [Hlt | Hge]; [reflexivity |].
    rewrite Hhigh by exact Hge. reflexivity. }
  rewrite <- E. apply Z.mod_pos_bound. apply Z.pow_pos_nonneg; lia.
Qed.

Lemma to_size_small x : 0 <= x < 2 ^ 64 -> to_size x = x.
Proof. intros H. unfold to_size. apply Z.mod_small. exact H. Qed.

Lemma to_int_small x : - 2 ^ 31 <= x < 2 ^ 31 -> to_int x = x.
Proof. intros H. unfold to_int. rewrite Z.mod_small; lia. Qed.

Lemma num_words_small o cw :
  0 <= o < W -> 0 <= len cw <= MAX_CODEWORD_BITS ->
  num_words o cw = (o + len cw) / W.
Proof.
  rewrite W_eq. unfold MAX_CODEWORD_BITS. intros Ho Hl. unfold num_words.
  rewrite to_size_small by lia. rewrite W_eq.
  apply to_int_small.
  assert (0 <= (o + len cw) / 8 < 33).
  { split; [apply Z.div_pos; lia | apply Z.div_lt_upper_bound; lia]. }
  lia.
Qed.

Lemma next_offset_small o cw :
  0 <= o < W -> 0 <= len cw <= MAX_CODEWORD_BITS ->
  to_int (to_size (o + len cw) mod W) = (o + len cw) mod W.
Proof.
  rewrite W_eq. unfold MAX_CODEWORD_BITS. intros Ho Hl.
  rewrite to_size_small by lia.
  apply to_int_small.
  pose proof (Z.mod_pos_bound (o + len cw) 8). lia.
Qed.

Lemma carry_shift_small o : 0 <= o < W -> carry_shift o = W - o.
Proof.
  rewrite W_eq. intros Ho. unfold carry_shift. rewrite W_eq.
  apply to_size_small. lia.
Qed.

Lemma shl_int_word x o :
  0 <= x < 2 ^ W -> 0 <= o < W -> shl_int x o = Done (Z.shiftl x o).
Proof.
  rewrite W_eq. intros Hx Ho. unfold shl_int, INT_BITS.
  assert (Hp : 0 < 2 ^ o <= 2 ^ 7).
  { split; [apply Z.pow_pos_nonneg; lia | apply Z.pow_le_mono_r; lia]. }
  replace ((0 <=? o) && (o <? 32) && (0 <=? x) && (x * 2 ^ o <? 2 ^ 31))
    with true; [reflexivity |].
  symmetry. rewrite !andb_true_iff. repeat split.
  - apply Z.leb_le; lia.
  - apply Z.ltb_lt; lia.
  - apply Z.leb_le; lia.
  - apply Z.ltb_lt. change (2 ^ 7) with 128 in Hp. change (2 ^ 8) with 256 in Hx.
    change (2 ^ 31) with 2147483648. nia.
Qed.

Lemma carry_word x o :
  0 <= o < W -> carry x o = Done (to_word (Z.shiftr x (W - o))).
Proof.
  intros Ho. unfold carry. rewrite carry_shift_small by exact Ho.
  unfold shr_int, INT_BITS. rewrite W_eq in *.
  replace ((0 <=? 8 - o) && (8 - o <? 32)) with true; [reflexivity |].
  symmetry. rewrite andb_true_iff. split; [apply Z.leb_le | apply Z.ltb_lt]; lia.
Qed.

(** ** Arrays *)

Lemma Done_inj {A : Type} (x y : A) : Done x = Done y -> x = y.
Proof. intros H. congruence. Qed.

Lemma index_Done {A : Type} (arr : list A) i a :
  index arr i = Done a ->
  0 <= i < Z.of_nat (length arr) /\ nth_error arr (Z.to_nat i) = Some a.
Proof.
  unfold index. destruct (Z.ltb_spec i 0) as [Hneg | Hpos]; [discriminate |].
  destruct (nth_error arr (Z.to_nat i)) as [a' |] eqn:E; [| discriminate].
  intros [= ->]. split; [| reflexivity].
  assert (Hlt : (Z.to_nat i < length arr)%nat).
  { apply nth_error_Some. rewrite E. discriminate. }
  lia.
Qed.

Lemma index_in_range {A : Type} (arr : list A) i :
  0 <= i < Z.of_nat (length arr) -> exists a, index arr i = Done a.
Proof.
  intros Hi. unfold index.
  destruct (Z.ltb_spec i 0) as [Hneg | Hpos]; [lia |].
  destruct (nth_error arr (Z.to_nat i)) as [a |] eqn:E; [eauto |].
  apply nth_error_None in E. lia.
Qed.

Lemma index_nth {A : Type} (arr : list A) i a d :
  index arr i = Done a -> nth (Z.to_nat i) arr d = a.
Proof.
  intros H. apply index_Done in H as [_ H]. apply nth_error_nth. exact H.
Qed.

(** ** Words as numbers *)

Lemma forallb_nth_error {A : Type} (p : A -> bool) l i a :
  forallb p l = true -> nth_error l i = Some a -> p a = true.
Proof.
  intros Hall Hnth. rewrite forallb_forall in Hall.
  apply Hall. eapply nth_error_In. exact Hnth.
Qed.

Lemma wf_word_range x : wf_word x = true -> 0 <= x < 2 ^ W.
Proof.
  unfold wf_word. rewrite andb_true_iff, Z.leb_le, Z.ltb_lt. tauto.
Qed.

Lemma testbit_words_val ws :
  forallb wf_word ws = true ->
  forall k, 0 <= k ->
  Z.testbit (words_val ws) k
  = Z.testbit (nth (Z.to_nat (k / W)) ws 0) (k mod W).
Proof.
  rewrite W_eq.
  induction ws as [| x ws IH]; intros Hwf k Hk.
  - simpl. destruct (Z.to_nat (k / 8)); rewrite !Z.testbit_0_l; reflexivity.
  - simpl in Hwf. apply andb_true_iff in Hwf as [Hx Hws].
    apply wf_word_range in Hx. rewrite W_eq in Hx.
    cbn [words_val]. rewrite W_eq.
    destruct (Z.ltb_spec k 8) as [Hlow | Hhigh].
    + rewrite Z.div_small, Z.mod_small by lia. cbn [Z.to_nat nth].
      rewrite <- (Z.mod_pow2_bits_low (x + 2 ^ 8 * words_val ws) 8 k) by lia.
      rewrite Z.mul_comm, Z.mod_add by lia.
      rewrite Z.mod_small by exact Hx. reflexivity.
    + replace k with ((k - 8) + 8) at 1 by lia.
      rewrite <- Z.div_pow2_bits by lia.
      rewrite Z.mul_comm, Z.div_add by lia.
      rewrite Z.div_small by exact Hx. rewrite Z.add_0_l.
      rewrite IH by (assumption || lia).
      replace k with ((k - 8) + 1 * 8) at 3 4 by lia.
      rewrite Z.div_add, Z.mod_add by lia.
      assert (0 <= (k - 8) / 8) by (apply Z.div_pos; lia).
      rewrite Z2Nat.inj_add by lia. rewrite Nat.add_comm. reflexivity.
Qed.

Lemma testbit_content cw k :
  forallb wf_word (bits cw) = true -> 0 <= k ->
  Z.testbit (content cw) k = cw_bit cw k.
Proof. intros Hwf Hk. apply testbit_words_val; assumption. Qed.

Lemma word_of_content cw w x :
  forallb wf_word (bits cw) = true ->
  index (bits cw) w = Done x ->
  x = to_word (Z.shiftr (content cw) (W * w)).
Proof.
  intros Hwf Hidx.
  pose proof (index_Done _ _ _ Hidx) as [Hw Hnth].
  assert (Hx : 0 <= x < 2 ^ W).
  { apply wf_word_range. eapply forallb_nth_error; eassumption. }
  apply Z.bits_inj'. intros j Hj.
  rewrite testbit_to_word, Z.shiftr_spec by exact Hj.
  destruct (Z.ltb_spec j W) as [Hlow | Hhigh].
  - rewrite testbit_content by (assumption || rewrite W_eq in *; lia).
    unfold cw_bit. rewrite W_eq in *.
    replace (j + 8 * w) with (j + w * 8) by lia.
    rewrite Z.div_add, Z.mod_add by lia.
    rewrite Z.div_small, Z.mod_small by lia. rewrite Z.add_0_l.
    rewrite (index_nth _ _ _ 0 Hidx). reflexivity.
  - apply (testbit_high x W); [exact Hx | rewrite W_eq in *; lia].
Qed.

(** ** The two bit identities of the loop body *)

(** Line 44: the word written is the low word of the pending bits. *)
Lemma emitted_word beta o c :
  0 <= o < W ->
  to_word (Z.lor beta (Z.shiftl (to_word c) o)) = to_word (pending beta o c).
Proof.
  intros Ho. unfold pending. apply Z.bits_inj'. intros j Hj.
  rewrite !testbit_to_word, !Z.lor_spec, !Z.shiftl_spec by exact Hj.
  rewrite testbit_to_word.
  destruct (Z.ltb_spec j W) as [Hlow | Hhigh]; [| reflexivity].
  destruct (Z.ltb_spec (j - o) W) as [_ | Hbad]; [reflexivity | lia].
Qed.

(** Line 45: the carry and the rest of the content are the pending bits
    without their low word. *)
Lemma carried_word beta o c :
  0 <= o < W -> 0 <= beta < 2 ^ W ->
  pending (to_word (Z.shiftr (to_word c) (W - o))) o (Z.shiftr c W)
  = Z.shiftr (pending beta o c) W.
Proof.
  intros Ho Hbeta. unfold pending. apply Z.bits_inj'. intros j Hj.
  rewrite Z.shiftr_spec, !Z.lor_spec by exact Hj.
  rewrite testbit_to_word, Z.shiftr_spec, testbit_to_word by exact Hj.
  rewrite (testbit_high beta W (j + W)) by (assumption || rewrite W_eq; lia).
  rewrite (Z.shiftl_spec c) by (rewrite W_eq; lia).
  replace (j + W - o) with (j + (W - o)) by lia.
  cbn [orb]. rewrite W_eq in *.
  destruct (Z.ltb_spec j o) as [Hlow | Hhigh].
  - rewrite Z.shiftl_spec_low by exact Hlow. rewrite orb_false_r.
    destruct (Z.ltb_spec j 8) as [_ | Hbad]; [| lia].
    destruct (Z.ltb_spec (j + (8 - o)) 8) as [_ | Hbad]; [reflexivity | lia].
  - rewrite Z.shiftl_spec, Z.shiftr_spec by lia.
    replace (j - o + 8) with (j + (8 - o)) by lia.
    destruct (Z.ltb_spec (j + (8 - o)) 8) as [Hbad | _]; [lia |].
    rewrite !andb_false_r. reflexivity.
Qed.

(** ** The words of a number *)

Lemma bytes_of_S v n :
  bytes_of v (S n) = to_word v :: bytes_of (Z.shiftr v W) n.
Proof.
  unfold bytes_of. rewrite <- cons_seq, <- seq_shift, map_cons, map_map.
  replace (Z.shiftr v (W * Z.of_nat 0)) with v
    by (rewrite Z.mul_0_r, Z.shiftr_0_r; reflexivity).
  f_equal. apply map_ext. intros j.
  rewrite Z.shiftr_shiftr by (rewrite W_eq; lia).
  f_equal. f_equal. lia.
Qed.

Lemma length_bytes_of v n : length (bytes_of v n) = n.
Proof. unfold bytes_of. rewrite length_map, length_seq. reflexivity. Qed.

(** ** One merge *)

Lemma wf_codeword_inv cw :
  wf_codeword cw = true ->
  0 <= len cw <= MAX_CODEWORD_BITS
  /\ Z.of_nat (length (bits cw)) = BITS_WORDS
  /\ forallb wf_word (bits cw) = true.
Proof.
  unfold wf_codeword.
  rewrite !andb_true_iff, !Z.leb_le, Z.eqb_eq. tauto.
Qed.

Lemma wf_code_lookup cs code b cw :
  wf_code code = true -> lookup cs code b = Done cw -> wf_codeword cw = true.
Proof.
  unfold wf_code, lookup. rewrite andb_true_iff. intros [_ Hall] Hidx.
  apply index_Done in Hidx as [_ Hnth].
  eapply forallb_nth_error; eassumption.
Qed.

(** The loop of lines 43-46 writes the low words of the pending bits and
    leaves the pending bits without them. *)
Lemma copy_words_spec cw o :
  wf_codeword cw = true -> 0 <= o < W ->
  forall trips w beta,
    0 <= beta < 2 ^ W -> 0 <= w -> w + Z.of_nat trips <= BITS_WORDS ->
    exists beta',
      copy_words cw o trips w beta
      = Done (beta',
              bytes_of (pending beta o (Z.shiftr (content cw) (W * w))) trips)
      /\ 0 <= beta' < 2 ^ W
      /\ pending beta' o (Z.shiftr (content cw) (W * (w + Z.of_nat trips)))
         = Z.shiftr (pending beta o (Z.shiftr (content cw) (W * w)))
                    (W * Z.of_nat trips).
Proof.
  intros Hwf Ho.
  destruct (wf_codeword_inv cw Hwf) as (Hlen & Hsize & Hwords).
  induction trips as [| trips IH]; intros w beta Hbeta Hw Hfit.
  - exists beta. cbn [copy_words bytes_of seq map].
    rewrite Z.add_0_r, Z.mul_0_r, Z.shiftr_0_r. auto.
  - destruct (index_in_range (bits cw) w) as [x Hx]; [lia |].
    pose proof (word_of_content cw w x Hwords Hx) as Ex.
    set (c := Z.shiftr (content cw) (W * w)) in *.
    assert (Hxr : 0 <= x < 2 ^ W) by (rewrite Ex; apply to_word_range).
    destruct (IH (w + 1) (to_word (Z.shiftr x (W - o))))
      as (beta' & Hrun & Hbeta' & Hrest);
      [apply to_word_range | lia | lia |].
    assert (Enext : Z.shiftr (content cw) (W * (w + 1)) = Z.shiftr c W).
    { unfold c. rewrite Z.shiftr_shiftr by (rewrite W_eq; lia).
      f_equal. lia. }
    rewrite Enext in Hrun, Hrest.
    rewrite Ex in Hrun, Hrest.
    rewrite (carried_word beta o c Ho Hbeta) in Hrun, Hrest.
    exists beta'. split; [| split].
    + cbn [copy_words]. rewrite Hx. cbn [bind].
      rewrite (shl_int_word x o Hxr Ho). cbn [bind].
      rewrite (carry_word x o Ho). cbn [bind].
      rewrite Ex at 1. rewrite Hrun. cbn [bind fst snd].
      rewrite bytes_of_S. rewrite Ex. rewrite emitted_word by exact Ho.
      reflexivity.
    + exact Hbeta'.
    + replace (w + Z.of_nat (S trips)) with (w + 1 + Z.of_nat trips) by lia.
      rewrite Hrest. rewrite Z.shiftr_shiftr by (rewrite W_eq; lia).
      f_equal. lia.
Qed.

(** Lines 31-55 for a codeword whose tail read stays inside [bits]. *)
Lemma merge_spec cs code a b cw :
  acc_typed a ->
  lookup cs code b = Done cw ->
  wf_codeword cw = true ->
  offset a + len cw < MAX_CODEWORD_BITS ->
  let v := pending (buf a) (offset a) (content cw) in
  let n := (offset a + len cw) / W in
  merge cs code a b
  = Done ({| buf := to_word (Z.shiftr v (W * n));
             offset := (offset a + len cw) mod W |},
          bytes_of v (Z.to_nat n)).
Proof.
  intros [Ho Hb] Hlook Hwf Hfit v n.
  destruct (wf_codeword_inv cw Hwf) as (Hlen & Hsize & Hwords).
  assert (Hn : 0 <= n < BITS_WORDS).
  { unfold n, BITS_WORDS, MAX_CODEWORD_BITS in *. rewrite W_eq in *.
    change (256 / 8) with 32.
    split; [apply Z.div_pos; lia | apply Z.div_lt_upper_bound; lia]. }
  unfold merge. rewrite Hlook. cbn [bind].
  rewrite num_words_small by assumption. fold n.
  destruct (copy_words_spec cw (offset a) Hwf Ho (Z.to_nat n) 0 (buf a))
    as (beta' & Hrun & Hbeta' & Hrest); [exact Hb | lia | lia |].
  rewrite Z.mul_0_r, Z.shiftr_0_r in Hrun, Hrest. fold v in Hrun, Hrest.
  rewrite Z.add_0_l, Z2Nat.id in Hrest by lia.
  rewrite Hrun. cbn [bind fst snd].
  destruct (index_in_range (bits cw) n) as [x Hx]; [lia |].
  rewrite Hx. cbn [bind].
  pose proof (word_of_content cw n x Hwords Hx) as Ex.
  assert (Hxr : 0 <= x < 2 ^ W) by (rewrite Ex; apply to_word_range).
  rewrite (shl_int_word x (offset a) Hxr Ho). cbn [bind].
  rewrite next_offset_small by assumption.
  rewrite Ex, emitted_word by exact Ho. rewrite Hrest. reflexivity.
Qed.

(** A merge that completes has read its tail word inside [bits]. *)
Lemma merge_done_fits cs code a b cw r :
  acc_typed a ->
  lookup cs code b = Done cw ->
  wf_codeword cw = true ->
  merge cs code a b = Done r ->
  offset a + len cw < MAX_CODEWORD_BITS.
Proof.
  intros [Ho Hb] Hlook Hwf Hrun.
  destruct (wf_codeword_inv cw Hwf) as (Hlen & Hsize & Hwords).
  unfold merge in Hrun. rewrite Hlook in Hrun. cbn [bind] in Hrun.
  rewrite num_words_small in Hrun by assumption.
  destruct (copy_words cw (offset a) _ 0 (buf a)) as [r' |];
    [| discriminate].
  cbn [bind] in Hrun.
  destruct (index (bits cw) ((offset a + len cw) / W)) as [x |] eqn:Hx;
    [| discriminate].
  apply index_Done in Hx as [Hx _].
  rewrite Hsize in Hx. unfold BITS_WORDS, MAX_CODEWORD_BITS in *.
  rewrite W_eq in *. change (256 / 8) with 32 in Hx.
  destruct (Z.ltb_spec (offset a + len cw) 256) as [Hlt | Hge]; [exact Hlt |].
  assert (32 <= (offset a + len cw) / 8)
    by (apply Z.div_le_lower_bound; lia).
  lia.
Qed.

(** A merge whose tail read leaves [bits] is undefined. *)
Lemma merge_overrun cs code a b cw :
  acc_typed a ->
  lookup cs code b = Done cw ->
  wf_codeword cw = true ->
  MAX_CODEWORD_BITS <= offset a + len cw ->
  merge cs code a b = Undefined.
Proof.
  intros Ha Hlook Hwf Hover.
  destruct (merge cs code a b) as [r |] eqn:Hrun; [| reflexivity].
  pose proof (merge_done_fits cs code a b cw r Ha Hlook Hwf Hrun). lia.
Qed.

Lemma merge_typed cs code a b cw r :
  acc_typed a ->
  lookup cs code b = Done cw ->
  wf_codeword cw = true ->
  merge cs code a b = Done r ->
  acc_typed (fst r)
  /\ offset (fst r) = (offset a + len cw) mod W
  /\ Z.of_nat (length (snd r)) = (offset a + len cw) / W.
Proof.
  intros Ha Hlook Hwf Hrun.
  pose proof (merge_done_fits cs code a b cw r Ha Hlook Hwf Hrun) as Hfit.
  rewrite (merge_spec cs code a b cw Ha Hlook Hwf Hfit) in Hrun.
  apply Done_inj in Hrun. subst r. cbn [fst snd buf offset].
  destruct Ha as [Ho Hb].
  destruct (wf_codeword_inv cw Hwf) as (Hlen & _).
  repeat split.
  - apply Z.mod_pos_bound. rewrite W_eq. lia.
  - apply Z.mod_pos_bound. rewrite W_eq. lia.
  - apply to_word_range.
  - apply to_word_range.
  - rewrite length_bytes_of. apply Z2Nat.id.
    apply Z.div_pos; rewrite W_eq in *; lia.
Qed.

(** ** Don't-care bits and the accumulator invariant *)

Lemma in_zrange from count k :
  from <= k < from + count -> In k (zrange from count).
Proof.
  intros Hk. unfold zrange. apply in_map_iff.
  exists (Z.to_nat (k - from)). split; [lia |].
  apply in_seq. lia.
Qed.

Lemma cw_bit_beyond cw k :
  Z.of_nat (length (bits cw)) = BITS_WORDS -> MAX_CODEWORD_BITS <= k ->
  cw_bit cw k = false.
Proof.
  unfold BITS_WORDS, MAX_CODEWORD_BITS. rewrite W_eq.
  change (256 / 8) with 32. intros Hsize Hk. unfold cw_bit. rewrite W_eq.
  assert (32 <= k / 8) by (apply Z.div_le_lower_bound; lia).
  rewrite nth_overflow by lia. apply Z.testbit_0_l.
Qed.

Lemma dont_care_zero_content cw k :
  wf_codeword cw = true -> dont_care_zero cw = true -> len cw <= k ->
  Z.testbit (content cw) k = false.
Proof.
  intros Hwf Hdc Hk.
  destruct (wf_codeword_inv cw Hwf) as (Hlen & Hsize & Hwords).
  rewrite testbit_content by (assumption || lia).
  destruct (Z.ltb_spec k MAX_CODEWORD_BITS) as [Hin | Hout].
  - unfold dont_care_zero in Hdc. rewrite forallb_forall in Hdc.
    apply negb_true_iff. apply Hdc. apply in_zrange. lia.
  - apply cw_bit_beyond; assumption.
Qed.

Lemma acc_ok_typed a : acc_ok a -> acc_typed a.
Proof.
  intros [Ho Hhigh]. split; [exact Ho |].
  apply bound_of_testbit; [rewrite W_eq; lia |].
  intros k Hk. apply Hhigh. lia.
Qed.

Lemma acc_init_ok : acc_ok acc_init.
Proof.
  split; [rewrite W_eq; cbn; lia |]. intros k _. apply Z.testbit_0_l.
Qed.

Lemma testbit_pending_low b o c k :
  0 <= k < o -> Z.testbit (pending b o c) k = Z.testbit b k.
Proof.
  intros Hk. unfold pending.
  rewrite Z.lor_spec, Z.shiftl_spec_low by lia. apply orb_false_r.
Qed.

Lemma testbit_pending_high b o c k :
  0 <= o -> (forall j, o <= j -> Z.testbit b j = false) -> o <= k ->
  Z.testbit (pending b o c) k = Z.testbit c (k - o).
Proof.
  intros Ho Hb Hk. unfold pending.
  rewrite Z.lor_spec, Z.shiftl_spec by lia. rewrite Hb by exact Hk.
  reflexivity.
Qed.

Lemma acc_ok_intro b o :
  0 <= o < W -> (forall k, o <= k -> Z.testbit b k = false) ->
  acc_ok {| buf := b; offset := o |}.
Proof. intros Ho Hb. split; assumption. Qed.

(** The merge keeps the invariant when the don't-care bits are zero. *)
Lemma merge_ok cs code a b cw r :
  acc_ok a ->
  lookup cs code b = Done cw ->
  wf_codeword cw = true ->
  dont_care_zero cw = true ->
  merge cs code a b = Done r ->
  acc_ok (fst r).
Proof.
  intros Hok Hlook Hwf Hdc Hrun.
  pose proof (acc_ok_typed a Hok) as Hty.
  pose proof (merge_done_fits cs code a b cw r Hty Hlook Hwf Hrun) as Hfit.
  rewrite (merge_spec cs code a b cw Hty Hlook Hwf Hfit) in Hrun.
  apply Done_inj in Hrun. subst r. cbn [fst].
  destruct Hok as [Ho Hhigh].
  destruct (wf_codeword_inv cw Hwf) as (Hlen & _).
  pose proof (Z.div_mod (offset a + len cw) W) as Hdm.
  pose proof (Z.mod_pos_bound (offset a + len cw) W) as Hmod.
  set (n := (offset a + len cw) / W) in *.
  set (o' := (offset a + len cw) mod W) in *.
  pose proof W_eq as HW.
  apply acc_ok_intro; [lia |].
  intros k Hk. rewrite testbit_to_word, Z.shiftr_spec by lia.
  rewrite testbit_pending_high by (assumption || lia).
  rewrite dont_care_zero_content by (assumption || lia).
  apply andb_false_r.
Qed.

(** ** Bit lists *)

Lemma bits_of_app v from n m :
  bits_of v from (n + m) = bits_of v from n ++ bits_of v (from + n) m.
Proof. unfold bits_of. rewrite seq_app, map_app. reflexivity. Qed.

Lemma length_bits_of v from n : length (bits_of v from n) = n.
Proof. unfold bits_of. rewrite length_map, length_seq. reflexivity. Qed.

Lemma bits_of_ext v u n :
  forall from from',
    (forall i, (i < n)%nat ->
       Z.testbit v (Z.of_nat (from + i)) = Z.testbit u (Z.of_nat (from' + i))) ->
    bits_of v from n = bits_of u from' n.
Proof.
  unfold bits_of. induction n as [| n IH]; intros from from' Hext.
  - reflexivity.
  - cbn [seq map]. f_equal.
    + specialize (Hext O). rewrite !Nat.add_0_r in Hext. apply Hext. lia.
    + apply IH. intros i Hi. specialize (Hext (S i)).
      rewrite !Nat.add_succ_r in Hext. apply Hext. lia.
Qed.

Lemma bits_of_zero v from n :
  (forall i, (i < n)%nat -> Z.testbit v (Z.of_nat (from + i)) = false) ->
  bits_of v from n = repeat false n.
Proof.
  unfold bits_of. revert from. induction n as [| n IH]; intros from Hz.
  - reflexivity.
  - cbn [seq map repeat]. f_equal.
    + specialize (Hz O). rewrite Nat.add_0_r in Hz. apply Hz. lia.
    + apply IH. intros i Hi. specialize (Hz (S i)).
      rewrite Nat.add_succ_r in Hz. apply Hz. lia.
Qed.

Lemma word_bits_eq w : word_bits w = bits_of w 0 8.
Proof. reflexivity. Qed.

Lemma words_bits_app ws1 ws2 :
  words_bits (ws1 ++ ws2) = words_bits ws1 ++ words_bits ws2.
Proof. unfold words_bits. apply flat_map_app. Qed.

Lemma length_words_bits ws :
  Z.of_nat (length (words_bits ws)) = W * Z.of_nat (length ws).
Proof.
  rewrite W_eq. induction ws as [| w ws IH]; [reflexivity |].
  cbn [words_bits flat_map]. rewrite length_app. fold (words_bits ws).
  rewrite word_bits_eq, length_bits_of. cbn [length]. lia.
Qed.

Lemma words_bits_bytes_of n :
  forall v, words_bits (bytes_of v n) = bits_of v 0 (8 * n).
Proof.
  induction n as [| n IH]; intros v.
  - reflexivity.
  - rewrite bytes_of_S. cbn [words_bits flat_map].
    fold (words_bits (bytes_of (Z.shiftr v W) n)). rewrite IH.
    replace (8 * S n)%nat with (8 + 8 * n)%nat by lia.
    rewrite bits_of_app, word_bits_eq. f_equal.
    + apply bits_of_ext. intros i Hi. rewrite testbit_to_word, W_eq.
      destruct (Z.ltb_spec (Z.of_nat (0 + i)) 8); [reflexivity | lia].
    + apply bits_of_ext. intros i Hi.
      rewrite Z.shiftr_spec, W_eq by lia. f_equal. lia.
Qed.

Lemma acc_bits_eq a :
  acc_bits a = bits_of (buf a) 0 (Z.to_nat (offset a)).
Proof. reflexivity. Qed.

Lemma codeword_bits_eq cw :
  forallb wf_word (bits cw) = true ->
  codeword_bits cw = bits_of (content cw) 0 (Z.to_nat (len cw)).
Proof.
  intros Hwf. unfold codeword_bits, bits_of. apply map_ext. intros k.
  rewrite testbit_content by (assumption || lia). reflexivity.
Qed.

(** The bits written by a merge, followed by the bits it leaves pending,
    are the bits that were pending followed by the codeword. *)
Lemma merge_bits cs code a b cw r :
  acc_ok a ->
  lookup cs code b = Done cw ->
  wf_codeword cw = true ->
  merge cs code a b = Done r ->
  words_bits (snd r) ++ acc_bits (fst r) = acc_bits a ++ codeword_bits cw.
Proof.
  intros Hok Hlook Hwf Hrun.
  pose proof (acc_ok_typed a Hok) as Hty.
  pose proof (merge_done_fits cs code a b cw r Hty Hlook Hwf Hrun) as Hfit.
  rewrite (merge_spec cs code a b cw Hty Hlook Hwf Hfit) in Hrun.
  apply Done_inj in Hrun. subst r. cbn [fst snd].
  destruct Hok as [Ho Hhigh].
  destruct (wf_codeword_inv cw Hwf) as (Hlen & _ & Hwords).
  pose proof (Z.div_mod (offset a + len cw) W) as Hdm.
  pose proof (Z.mod_pos_bound (offset a + len cw) W) as Hmod.
  assert (Hn : 0 <= (offset a + len cw) / W)
    by (apply Z.div_pos; rewrite W_eq in *; lia).
  set (n := (offset a + len cw) / W) in *.
  set (o' := (offset a + len cw) mod W) in *.
  set (v := pending (buf a) (offset a) (content cw)).
  pose proof W_eq as HW.
  rewrite words_bits_bytes_of, !acc_bits_eq, codeword_bits_eq by exact Hwords.
  cbn [buf offset].
  transitivity (bits_of v 0 (8 * Z.to_nat n + Z.to_nat o')).
  - rewrite bits_of_app. f_equal.
    apply bits_of_ext. intros i Hi.
    rewrite testbit_to_word, Z.shiftr_spec by lia.
    destruct (Z.ltb_spec (Z.of_nat (0 + i)) W) as [_ | Hbad]; [| lia].
    cbn [andb]. f_equal. lia.
  - replace (8 * Z.to_nat n + Z.to_nat o')%nat
      with (Z.to_nat (offset a) + Z.to_nat (len cw))%nat by lia.
    rewrite bits_of_app. f_equal.
    + apply bits_of_ext. intros i Hi. unfold v.
      apply testbit_pending_low. lia.
    + apply bits_of_ext. intros i Hi. unfold v.
      rewrite testbit_pending_high by (assumption || lia).
      f_equal. lia.
Qed.

(** ** The loop over the input *)

Lemma merge_lookup cs code a b r :
  merge cs code a b = Done r -> exists cw, lookup cs code b = Done cw.
Proof.
  unfold merge. destruct (lookup cs code b) as [cw |]; [eauto | discriminate].
Qed.

Lemma dont_care_zero_lookup cs code b cw :
  dont_care_zero_code code = true -> lookup cs code b = Done cw ->
  dont_care_zero cw = true.
Proof.
  unfold dont_care_zero_code, lookup. intros Hall Hidx.
  apply index_Done in Hidx as [_ Hnth].
  eapply forallb_nth_error; eassumption.
Qed.

Lemma assigned_lookup cs code b :
  assigned cs code b = true ->
  exists cw, lookup cs code b = Done cw /\ 0 < len cw.
Proof.
  unfold assigned. destruct (lookup cs code b) as [cw |]; [| discriminate].
  intros H. apply Z.ltb_lt in H. eauto.
Qed.

Lemma pack_loop_cons cs code a b rest r1 :
  merge cs code a b = Done r1 ->
  pack_loop cs code a (b :: rest)
  = r2 <- pack_loop cs code (fst r1) rest ;;
    Done (fst r2, snd r1 ++ snd r2).
Proof. intros H. cbn [pack_loop]. rewrite H. reflexivity. Qed.

Lemma pack_loop_cons_inv cs code a b rest r :
  pack_loop cs code a (b :: rest) = Done r ->
  exists r1 r2,
    merge cs code a b = Done r1
    /\ pack_loop cs code (fst r1) rest = Done r2
    /\ r = (fst r2, snd r1 ++ snd r2).
Proof.
  cbn [pack_loop]. destruct (merge cs code a b) as [r1 |]; [| discriminate].
  cbn [bind].
  destruct (pack_loop cs code (fst r1) rest) as [r2 |] eqn:Hrest;
    [| discriminate].
  cbn [bind]. intros H. apply Done_inj in H.
  exists r1, r2. subst r. auto.
Qed.

Lemma in_table_lookup cs code b :
  in_table cs code b = true -> exists cw, lookup cs code b = Done cw.
Proof.
  unfold in_table. destruct (lookup cs code b) as [cw |]; [eauto | discriminate].
Qed.

Lemma assigned_in_table cs code input :
  forallb (assigned cs code) input = true ->
  forallb (in_table cs code) input = true.
Proof.
  rewrite !forallb_forall. intros Hasg b Hb.
  destruct (assigned_lookup _ _ _ (Hasg b Hb)) as (cw & Hlook & _).
  unfold in_table. rewrite Hlook. reflexivity.
Qed.

(** The merges complete when every symbol indexes an entry of the table
    and every merge finds [offset + len] below [MAX_CODEWORD_BITS]. *)
Lemma pack_loop_runs cs code input :
  wf_code code = true ->
  forallb (in_table cs code) input = true ->
  forall a, acc_typed a ->
    tails_fit cs code (offset a) input = true ->
    completes (pack_loop cs code a input).
Proof.
  intros Hwf. induction input as [| b rest IH]; intros Hin a Hty Hfit.
  - eexists. reflexivity.
  - cbn [forallb] in Hin. apply andb_true_iff in Hin as [Hb Hin].
    cbn [tails_fit] in Hfit. apply andb_true_iff in Hfit as [Hfb Hfit].
    destruct (in_table_lookup _ _ _ Hb) as [cw Hlook].
    pose proof (wf_code_lookup _ _ _ _ Hwf Hlook) as Hcw.
    unfold sym_len in Hfb, Hfit. rewrite Hlook in Hfb, Hfit.
    apply Z.ltb_lt in Hfb.
    pose proof (merge_spec cs code a b cw Hty Hlook Hcw Hfb) as Hrun.
    cbv zeta in Hrun.
    destruct (merge_typed _ _ _ _ _ _ Hty Hlook Hcw Hrun) as (Hty' & Hoff & _).
    rewrite <- Hoff in Hfit.
    destruct (IH Hin _ Hty' Hfit) as [r2 Hr2].
    rewrite (pack_loop_cons _ _ _ _ _ _ Hrun), Hr2.
    eexists. reflexivity.
Qed.

(** In particular when every codeword leaves a spare word in [bits]. *)
Lemma tails_fit_spare cs code input :
  forallb (spare_word cs code) input = true ->
  forall o, 0 <= o < W -> tails_fit cs code o input = true.
Proof.
  induction input as [| b rest IH]; intros Hspare o Ho; [reflexivity |].
  cbn [forallb] in Hspare. apply andb_true_iff in Hspare as [Hb Hspare].
  cbn [tails_fit]. apply andb_true_iff. split.
  - unfold spare_word in Hb. apply Z.leb_le in Hb. apply Z.ltb_lt.
    unfold MAX_CODEWORD_BITS in *. rewrite W_eq in *. lia.
  - apply IH; [exact Hspare |]. apply Z.mod_pos_bound. rewrite W_eq. lia.
Qed.

(** Number of words written by the loop. *)
Lemma pack_loop_count cs code input :
  wf_code code = true ->
  forall a r,
    acc_typed a ->
    pack_loop cs code a input = Done r ->
    acc_typed (fst r)
    /\ W * Z.of_nat (length (snd r)) + offset (fst r)
       = offset a + total_bits cs code input.
Proof.
  intros Hwf. induction input as [| b rest IH]; intros a r Hty Hrun.
  - cbn [pack_loop] in Hrun. apply Done_inj in Hrun. subst r.
    cbn [fst snd length total_bits fold_right]. split; [exact Hty | lia].
  - apply pack_loop_cons_inv in Hrun as (r1 & r2 & Hm & Hrest & ->).
    destruct (merge_lookup _ _ _ _ _ Hm) as [cw Hlook].
    pose proof (wf_code_lookup _ _ _ _ Hwf Hlook) as Hcw.
    destruct (merge_typed _ _ _ _ _ _ Hty Hlook Hcw Hm) as (Hty1 & Ho1 & Hn1).
    destruct (IH _ _ Hty1 Hrest) as (Hty2 & Hcount).
    cbn [fst snd]. split; [exact Hty2 |].
    rewrite length_app, Nat2Z.inj_add.
    cbn [total_bits fold_right]. fold (total_bits cs code rest).
    unfold sym_len at 1. rewrite Hlook.
    pose proof (Z.div_mod (offset a + len cw) W) as Hdm.
    rewrite W_eq in *. lia.
Qed.

(** Bits written by the loop, and the invariant at its end. *)
Lemma pack_loop_bits cs code input :
  wf_code code = true ->
  dont_care_zero_code code = true ->
  forall a r,
    acc_ok a ->
    pack_loop cs code a input = Done r ->
    acc_ok (fst r)
    /\ words_bits (snd r) ++ acc_bits (fst r)
       = acc_bits a ++ stream_bits cs code input.
Proof.
  intros Hwf Hdc. induction input as [| b rest IH]; intros a r Hok Hrun.
  - cbn [pack_loop] in Hrun. apply Done_inj in Hrun. subst r.
    cbn [fst snd stream_bits flat_map words_bits].
    rewrite app_nil_r. split; [exact Hok | reflexivity].
  - apply pack_loop_cons_inv in Hrun as (r1 & r2 & Hm & Hrest & ->).
    destruct (merge_lookup _ _ _ _ _ Hm) as [cw Hlook].
    pose proof (wf_code_lookup _ _ _ _ Hwf Hlook) as Hcw.
    pose proof (dont_care_zero_lookup _ _ _ _ Hdc Hlook) as Hcwz.
    pose proof (merge_ok _ _ _ _ _ _ Hok Hlook Hcw Hcwz Hm) as Hok1.
    pose proof (merge_bits _ _ _ _ _ _ Hok Hlook Hcw Hm) as Hbits1.
    destruct (IH _ _ Hok1 Hrest) as (Hok2 & Hbits2).
    cbn [fst snd]. split; [exact Hok2 |].
    rewrite words_bits_app, <- app_assoc, Hbits2, app_assoc, Hbits1.
    cbn [stream_bits flat_map]. rewrite Hlook, app_assoc. reflexivity.
Qed.

(** ** Tables that agree below [len + W] *)

Lemma nth_error_combine {A B : Type} (l1 : list A) (l2 : list B) :
  forall i a b,
    nth_error l1 i = Some a -> nth_error l2 i = Some b ->
    nth_error (combine l1 l2) i = Some (a, b).
Proof.
  revert l2. induction l1 as [| x l1 IH]; intros l2 i a b H1 H2.
  - destruct i; discriminate.
  - destruct l2 as [| y l2]; [destruct i; discriminate |].
    destruct i as [| i]; cbn in *.
    + congruence.
    + apply IH; assumption.
Qed.

Lemma agree_below_inv extra cw1 cw2 :
  agree_below extra cw1 cw2 = true ->
  len cw1 = len cw2
  /\ forall k, 0 <= k < len cw1 + extra -> cw_bit cw1 k = cw_bit cw2 k.
Proof.
  unfold agree_below. rewrite andb_true_iff, Z.eqb_eq, forallb_forall.
  intros [Hlen Hbits]. split; [exact Hlen |].
  intros k Hk. apply Bool.eqb_prop. apply Hbits. apply in_zrange. lia.
Qed.

Lemma code_agree_lookup cs extra code1 code2 b :
  code_agree_below extra code1 code2 = true ->
  (lookup cs code1 b = Undefined /\ lookup cs code2 b = Undefined)
  \/ exists cw1 cw2,
       lookup cs code1 b = Done cw1 /\ lookup cs code2 b = Done cw2
       /\ agree_below extra cw1 cw2 = true.
Proof.
  unfold code_agree_below. rewrite andb_true_iff, Nat.eqb_eq, forallb_forall.
  intros [Hsize Hall]. unfold lookup.
  destruct (index code1 (char_value cs b)) as [cw1 |] eqn:H1.
  - right. pose proof (index_Done _ _ _ H1) as [Hi Hn1].
    destruct (index_in_range code2 (char_value cs b)) as [cw2 H2]; [lia |].
    pose proof (index_Done _ _ _ H2) as [_ Hn2].
    exists cw1, cw2. repeat split; [exact H2 |].
    apply (Hall (cw1, cw2)). eapply nth_error_In.
    apply nth_error_combine; eassumption.
  - left. split; [reflexivity |].
    destruct (index code2 (char_value cs b)) as [cw2 |] eqn:H2; [| reflexivity].
    pose proof (index_Done _ _ _ H2) as [Hi _].
    destruct (index_in_range code1 (char_value cs b)) as [cw1 H1']; [lia |].
    congruence.
Qed.

Lemma bytes_of_ext v u n :
  (forall k, 0 <= k < W * Z.of_nat n -> Z.testbit v k = Z.testbit u k) ->
  bytes_of v n = bytes_of u n.
Proof.
  intros Hext. unfold bytes_of. apply map_ext_in. intros j Hj.
  apply in_seq in Hj. apply Z.bits_inj'. intros i Hi.
  rewrite !testbit_to_word, !Z.shiftr_spec by exact Hi.
  destruct (Z.ltb_spec i W) as [Hlow | Hhigh]; [| reflexivity].
  cbn [andb]. apply Hext. rewrite W_eq in *. lia.
Qed.

Lemma merge_agree cs code1 code2 a b :
  wf_code code1 = true -> wf_code code2 = true ->
  code_agree_below W code1 code2 = true ->
  acc_typed a ->
  merge cs code1 a b = merge cs code2 a b.
Proof.
  intros Hwf1 Hwf2 Hagree Hty.
  destruct (code_agree_lookup cs W code1 code2 b Hagree)
    as [[H1 H2] | (cw1 & cw2 & H1 & H2 & Hcw)].
  - unfold merge. rewrite H1, H2. reflexivity.
  - pose proof (wf_code_lookup _ _ _ _ Hwf1 H1) as Hcw1.
    pose proof (wf_code_lookup _ _ _ _ Hwf2 H2) as Hcw2.
    destruct (agree_below_inv _ _ _ Hcw) as [Hlen Hbits].
    destruct (Z.ltb_spec (offset a + len cw1) MAX_CODEWORD_BITS)
      as [Hfit | Hover].
    + rewrite (merge_spec cs code1 a b cw1 Hty H1 Hcw1 Hfit).
      rewrite (merge_spec cs code2 a b cw2 Hty H2 Hcw2)
        by (rewrite <- Hlen; exact Hfit).
      rewrite <- Hlen.
      destruct (wf_codeword_inv cw1 Hcw1) as (Hl1 & _ & Hw1).
      destruct (wf_codeword_inv cw2 Hcw2) as (_ & _ & Hw2).
      destruct Hty as [Ho Hb].
      pose proof (Z.div_mod (offset a + len cw1) W) as Hdm.
      pose proof (Z.mod_pos_bound (offset a + len cw1) W) as Hmod.
      assert (Hn : 0 <= (offset a + len cw1) / W)
        by (apply Z.div_pos; rewrite W_eq in *; lia).
      set (n := (offset a + len cw1) / W) in *.
      set (o' := (offset a + len cw1) mod W) in *.
      pose proof W_eq as HW.
      assert (Hv : forall k, 0 <= k < W * n + W ->
                Z.testbit (pending (buf a) (offset a) (content cw1)) k
                = Z.testbit (pending (buf a) (offset a) (content cw2)) k).
      { intros k Hk. unfold pending.
        rewrite !Z.lor_spec, !Z.shiftl_spec by lia. f_equal.
        destruct (Z.ltb_spec (k - offset a) 0) as [Hneg | Hpos].
        - rewrite !Z.testbit_neg_r by exact Hneg. reflexivity.
        - rewrite !testbit_content by assumption. apply Hbits. lia. }
      f_equal. f_equal; [f_equal |].
      * apply Z.bits_inj'. intros i Hi.
        rewrite !testbit_to_word, !Z.shiftr_spec by exact Hi.
        destruct (Z.ltb_spec i W) as [Hlow | Hhigh]; [| reflexivity].
        cbn [andb]. apply Hv. lia.
      * apply bytes_of_ext. intros k Hk. apply Hv. lia.
    + rewrite (merge_overrun cs code1 a b cw1 Hty H1 Hcw1 Hover).
      rewrite (merge_overrun cs code2 a b cw2 Hty H2 Hcw2)
        by (rewrite <- Hlen; exact Hover).
      reflexivity.
Qed.

Lemma pack_loop_agree cs code1 code2 input :
  wf_code code1 = true -> wf_code code2 = true ->
  code_agree_below W code1 code2 = true ->
  forall a, acc_typed a ->
  pack_loop cs code1 a input = pack_loop cs code2 a input.
Proof.
  intros Hwf1 Hwf2 Hagree.
  induction input as [| b rest IH]; intros a Hty; [reflexivity |].
  cbn [pack_loop].
  rewrite <- (merge_agree cs code1 code2 a b Hwf1 Hwf2 Hagree Hty).
  destruct (merge cs code1 a b) as [r1 |] eqn:Hm; [| reflexivity].
  cbn [bind].
  destruct (merge_lookup _ _ _ _ _ Hm) as [cw Hlook].
  pose proof (wf_code_lookup _ _ _ _ Hwf1 Hlook) as Hcw.
  destruct (merge_typed _ _ _ _ _ _ Hty Hlook Hcw Hm) as (Hty1 & _).
  rewrite (IH _ Hty1). reflexivity.
Qed.

Lemma acc_init_typed : acc_typed acc_init.
Proof. apply acc_ok_typed, acc_init_ok. Qed.

(** ** The loop counter *)

Lemma INT_MAX_eq : INT_MAX = 2147483647.
Proof. reflexivity. Qed.

(** The loop of lines 30-56 is the sequence of its merges when the counter
    stays below [INT_MAX], and is undefined when the increment overflows. *)
Lemma encode_loop_pack cs code input :
  forall a i, i <= INT_MAX ->
    encode_loop cs code a i input
    = if i + Z.of_nat (length input) <=? INT_MAX
      then pack_loop cs code a input
      else Undefined.
Proof.
  induction input as [| b rest IH]; intros a i Hi.
  - cbn [encode_loop pack_loop length].
    destruct (Z.leb_spec (i + Z.of_nat 0) INT_MAX); [reflexivity | lia].
  - cbn [encode_loop pack_loop].
    destruct (merge cs code a b) as [r1 |]; cbn [bind].
    + unfold incr_int. destruct (Z.ltb_spec i INT_MAX) as [Hlt | Hge].
      * cbn [bind]. rewrite IH by lia.
        replace (i + 1 + Z.of_nat (length rest))
          with (i + Z.of_nat (length (b :: rest))) by (cbn [length]; lia).
        destruct (i + Z.of_nat (length (b :: rest)) <=? INT_MAX); reflexivity.
      * cbn [bind].
        destruct (Z.leb_spec (i + Z.of_nat (length (b :: rest))) INT_MAX);
          [cbn [length] in *; lia | reflexivity].
    + destruct (i + Z.of_nat (length (b :: rest)) <=? INT_MAX); reflexivity.
Qed.

Lemma encode_unfold cs code input :
  encode cs code input
  = if fits_int input then pack_words cs code input else Undefined.
Proof.
  unfold encode, fits_int, pack_words.
  rewrite encode_loop_pack by (rewrite INT_MAX_eq; lia).
  rewrite Z.add_0_l.
  destruct (Z.of_nat (length input) <=? INT_MAX); reflexivity.
Qed.

Lemma fits_int_app xs ys :
  fits_int (xs ++ ys) = true -> fits_int xs = true /\ fits_int ys = true.
Proof.
  unfold fits_int. rewrite length_app, Nat2Z.inj_add, !Z.leb_le. lia.
Qed.

(** An input of more than [INT_MAX] symbols overflows the counter of
    line 30: the call is undefined. *)
Lemma encode_counter_overflow cs code input :
  fits_int input = false -> encode cs code input = Undefined.
Proof. intros Hint. rewrite encode_unfold, Hint. reflexivity. Qed.

(** * Properties of the specification *)

(** ** C1: one call of [encode] packs the codewords *)

Lemma padding_length m o :
  0 <= o < W ->
  padding (W * m + o)
  = repeat false (if 0 <? o then Z.to_nat (W - o) else 0%nat).
Proof.
  intros Ho. unfold padding.
  rewrite Z.add_comm, Z.mul_comm, Z.mod_add by (rewrite W_eq; lia).
  rewrite (Z.mod_small o) by exact Ho. rewrite W_eq in *.
  destruct (Z.ltb_spec 0 o) as [Hpos | Hzero].
  - rewrite Z.mod_small by lia. reflexivity.
  - replace o with 0 by lia. reflexivity.
Qed.

Lemma word_bits_acc a :
  acc_ok a ->
  word_bits (buf a) = acc_bits a ++ repeat false (Z.to_nat (W - offset a)).
Proof.
  intros [Ho Hhigh]. rewrite word_bits_eq, acc_bits_eq. rewrite W_eq in *.
  replace 8%nat with (Z.to_nat (offset a) + Z.to_nat (8 - offset a))%nat
    at 1 by lia.
  rewrite bits_of_app. f_equal.
  apply bits_of_zero. intros i Hi. apply Hhigh. lia.
Qed.

Lemma length_acc_bits a : length (acc_bits a) = Z.to_nat (offset a).
Proof. rewrite acc_bits_eq. apply length_bits_of. Qed.

(** C1, as stated, fails: with the don't-care bits of ['A'] set, the one
    word written for the input ["A"] is [0xFF], not the codeword bit [1]
    followed by seven zero bits. *)
Lemma encode_packs_codewords_counterexample :
  ~ (forall cs code input,
       wf_code code = true ->
       forallb (assigned cs code) input = true ->
       exists out,
         encode cs code input = Done out
         /\ words_bits out
            = stream_bits cs code input
              ++ padding (Z.of_nat (length (stream_bits cs code input)))).
Proof.
  intros Hclaim.
  destruct (Hclaim false code_dirty [65] eq_refl eq_refl) as (out & Hrun & Hbits).
  vm_compute in Hrun. apply Done_inj in Hrun. subst out.
  vm_compute in Hbits. discriminate.
Qed.

(** C1, amended: for a table of type [code_t] whose don't-care bits are
    zero, and an input of at most [INT_MAX] symbols in which every symbol,
    read as a plain [char], indexes an entry of the table of positive
    length (where [char] is signed this leaves out the bytes from 128), and
    for which every merge finds [offset + len] below [MAX_CODEWORD_BITS],
    one call of [encode] completes, and the bits of the words written, least
    significant bit first and in word order, are the codewords of the
    symbols one after the other, followed by zero bits up to the next
    multiple of [W]. *)
Theorem encode_packs_codewords cs code input :
  wf_code code = true ->
  dont_care_zero_code code = true ->
  forallb (assigned cs code) input = true ->
  tails_fit cs code 0 input = true ->
  fits_int input = true ->
  exists out,
    encode cs code input = Done out
    /\ words_bits out
       = stream_bits cs code input
         ++ padding (Z.of_nat (length (stream_bits cs code input))).
Proof.
  intros Hwf Hdc Hasg Hfit Hint.
  destruct (pack_loop_runs cs code input Hwf (assigned_in_table _ _ _ Hasg)
              acc_init acc_init_typed Hfit) as [r Hrun].
  destruct (pack_loop_bits cs code input Hwf Hdc acc_init r acc_init_ok Hrun)
    as (Hok & Hbits).
  change (acc_bits acc_init) with (@nil bool) in Hbits. cbn [app] in Hbits.
  exists (snd r ++ snd (flush (fst r))). split.
  - rewrite encode_unfold, Hint. unfold pack_words. rewrite Hrun. reflexivity.
  - assert (Hlen : Z.of_nat (length (stream_bits cs code input))
                   = W * Z.of_nat (length (snd r)) + offset (fst r)).
    { rewrite <- Hbits, length_app, Nat2Z.inj_add, length_words_bits.
      rewrite length_acc_bits. destruct Hok as [Ho _]. lia. }
    rewrite Hlen, (padding_length _ _ (proj1 Hok)).
    rewrite words_bits_app. unfold flush. cbn [snd].
    destruct (Z.ltb_spec 0 (offset (fst r))) as [Hpos | Hzero].
    + cbn [words_bits flat_map]. rewrite app_nil_r.
      rewrite (word_bits_acc _ Hok), app_assoc, Hbits. reflexivity.
    + cbn [words_bits flat_map repeat]. rewrite <- Hbits.
      rewrite acc_bits_eq.
      replace (Z.to_nat (offset (fst r))) with 0%nat
        by (destruct Hok as [Ho _]; lia).
      cbn [bits_of seq map]. rewrite !app_nil_r. reflexivity.
Qed.

Lemma encode_packs_codewords_witness :
  exists out,
    encode false code_wide [65; 66; 65; 70] = Done out
    /\ words_bits out
       = stream_bits false code_wide [65; 66; 65; 70]
         ++ padding (Z.of_nat (length
              (stream_bits false code_wide [65; 66; 65; 70]))).
Proof.
  apply (encode_packs_codewords false code_wide [65; 66; 65; 70]);
    vm_compute; reflexivity.
Defined.

(** ** C2: chunks *)

(** C2 at the chunks ["A"], ["B"]: every call of [encode] starts from a
    fresh accumulator (lines 27-28) and writes its own padded last word
    (lines 59-61), so the loop of [main] writes [0x01 0x02] for the two
    chunks, where one call on ["AB"] writes [0x05]. *)
Theorem main_loop_depends_on_chunks (cs : bool) :
  main_loop cs code_main [[65]; [66]] = Done [1; 2]
  /\ encode cs code_main ([65] ++ [66]) = Done [5].
Proof. destruct cs; split; vm_compute; reflexivity. Qed.

(** ** C3: the tail read of line 52 *)

(** C3 at [offset = 0], [len = MAX_CODEWORD_BITS]: [num_words] is the number
    of elements of [bits], so line 52 reads [bits[32]], one past the last
    element, and the merge is undefined. *)
Theorem tail_read_past_bits (cs : bool) :
  wf_code code_long = true
  /\ exists cw,
       lookup cs code_long 65 = Done cw
       /\ len cw = MAX_CODEWORD_BITS
       /\ num_words (offset acc_init) cw = Z.of_nat (length (bits cw))
       /\ index (bits cw) (num_words (offset acc_init) cw) = Undefined
       /\ merge cs code_long acc_init 65 = Undefined
       /\ encode cs code_long [65] = Undefined.
Proof.
  split; [reflexivity |].
  destruct cs; eexists; (split; [reflexivity |]); vm_compute; auto.
Qed.

(** The tail read stays inside [bits] exactly when [offset + len] is below
    [MAX_CODEWORD_BITS]. *)
Lemma tail_read_in_bounds o cw :
  wf_codeword cw = true -> 0 <= o < W ->
  (completes (index (bits cw) (num_words o cw))
   <-> o + len cw < MAX_CODEWORD_BITS).
Proof.
  intros Hwf Ho.
  destruct (wf_codeword_inv cw Hwf) as (Hlen & Hsize & _).
  rewrite num_words_small by assumption.
  unfold BITS_WORDS, MAX_CODEWORD_BITS in *. rewrite W_eq in *.
  change (256 / 8) with 32 in Hsize.
  assert (Hn : 0 <= (o + len cw) / 8) by (apply Z.div_pos; lia).
  split.
  - intros [x Hx]. apply index_Done in Hx as [Hx _].
    destruct (Z.ltb_spec (o + len cw) 256) as [Hlt | Hge]; [exact Hlt |].
    assert (32 <= (o + len cw) / 8) by (apply Z.div_le_lower_bound; lia).
    lia.
  - intros Hfit. apply index_in_range.
    assert ((o + len cw) / 8 < 32) by (apply Z.div_lt_upper_bound; lia).
    lia.
Qed.

(** ** C4: the carry of line 45 *)

(** C4, as stated, fails in its last clause: at [offset = 0] the count of
    the right shift of line 45 is the full word width [W]; the shift is
    performed, on the operand promoted to [int], and is not special-cased. *)
Lemma carry_special_case_counterexample :
  ~ (forall o, 0 <= o < W -> carry_shift o <> W).
Proof. intros Hclaim. apply (Hclaim 0); [rewrite W_eq; lia | reflexivity]. Qed.

(** C4, amended: for every word and every offset in [0, W) the carry of
    line 45 is defined; it is the word shifted right by [W - offset], the
    shift being performed at every offset on the operand promoted to [int];
    its value is 0 when [offset] is 0, and the word shifted right by
    [W - offset] when [offset > 0]. *)
Theorem carry_defined x o :
  0 <= x < 2 ^ W -> 0 <= o < W ->
  carry x o = (lo <- shr_int x (W - o) ;; Done (to_word lo))
  /\ carry x o = Done (carry_spec x o).
Proof.
  intros Hx Ho. split.
  - unfold carry. rewrite carry_shift_small by exact Ho. reflexivity.
  - rewrite carry_word by exact Ho. f_equal. unfold carry_spec.
    destruct (Z.eqb_spec o 0) as [-> | Hne].
    + rewrite Z.sub_0_r, Z.shiftr_div_pow2 by (rewrite W_eq; lia).
      rewrite Z.div_small by exact Hx. reflexivity.
    + apply to_word_small. rewrite Z.shiftr_div_pow2 by lia.
      rewrite W_eq in *. split.
      * apply Z.div_pos; [lia | apply Z.pow_pos_nonneg; lia].
      * apply Z.div_lt_upper_bound; [apply Z.pow_pos_nonneg; lia |].
        assert (0 < 2 ^ (8 - o)) by (apply Z.pow_pos_nonneg; lia). nia.
Qed.

Lemma carry_defined_witness :
  carry 255 0 = (lo <- shr_int 255 (W - 0) ;; Done (to_word lo))
  /\ carry 255 0 = Done (carry_spec 255 0).
Proof. apply (carry_defined 255 0); rewrite W_eq; cbn; lia. Defined.

(** ** C5: symbols without a codeword *)

(** C5, as stated, fails: the merge of ['Z'], whose entry has length 0,
    completes without any error; and when the entry has a content bit set
    the buffer changes. *)
Lemma merge_unassigned_counterexample :
  (exists cw, lookup false code_main 90 = Done cw /\ len cw = 0)
  /\ completes (merge false code_main acc_init 90)
  /\ (exists cw, lookup false code_stray 90 = Done cw /\ len cw = 0)
  /\ merge false code_stray acc_init 90
     = Done ({| buf := 1; offset := 0 |}, []).
Proof.
  split; [eexists; split; reflexivity |].
  split; [eexists; reflexivity |].
  split; [eexists; split; reflexivity |].
  reflexivity.
Qed.

(** C5, amended: [encode] has no error path.  For a symbol whose entry has
    length 0 the merge completes, writes no word, leaves [offset] unchanged
    and ORs the first content word, shifted left by [offset], into the
    buffer; when that word is 0, as in every unassigned entry of the table
    of [main], the accumulator is unchanged. *)
Theorem merge_zero_length cs code a b cw :
  acc_typed a ->
  wf_codeword cw = true ->
  lookup cs code b = Done cw ->
  len cw = 0 ->
  merge cs code a b
  = Done ({| buf := to_word (Z.lor (buf a)
                               (Z.shiftl (nth 0 (bits cw) 0) (offset a)));
             offset := offset a |}, [])
  /\ (nth 0 (bits cw) 0 = 0 -> merge cs code a b = Done (a, [])).
Proof.
  intros [Ho Hb] Hwf Hlook Hlen.
  destruct (wf_codeword_inv cw Hwf) as (_ & Hsize & Hwords).
  assert (Hrun : merge cs code a b
    = Done ({| buf := to_word (Z.lor (buf a)
                                 (Z.shiftl (nth 0 (bits cw) 0) (offset a)));
               offset := offset a |}, [])).
  { assert (Hl : 0 <= len cw <= MAX_CODEWORD_BITS)
      by (rewrite Hlen; unfold MAX_CODEWORD_BITS; lia).
    pose proof (num_words_small (offset a) cw Ho Hl) as Hnw.
    pose proof (next_offset_small (offset a) cw Ho Hl) as Hno.
    rewrite Hlen, Z.add_0_r in Hnw, Hno.
    rewrite Z.div_small in Hnw by exact Ho.
    rewrite (Z.mod_small (offset a) W) in Hno by exact Ho.
    unfold merge. rewrite Hlook. cbn [bind].
    rewrite Hlen, Z.add_0_r, Hnw, Hno.
    cbn [Z.to_nat copy_words bind fst snd].
    destruct (index_in_range (bits cw) 0) as [x Hx];
      [rewrite Hsize; split; [| reflexivity]; intros H; discriminate H |].
    rewrite Hx. cbn [bind].
    pose proof (index_nth _ _ _ 0 Hx) as Hfirst.
    change (Z.to_nat 0) with 0%nat in Hfirst. rewrite Hfirst.
    assert (Hxr : 0 <= x < 2 ^ W).
    { apply wf_word_range. apply index_Done in Hx as [_ Hx].
      eapply forallb_nth_error; eassumption. }
    rewrite (shl_int_word x (offset a) Hxr Ho). reflexivity. }
  split; [exact Hrun |].
  intros Hzero. rewrite Hrun, Hzero, Z.shiftl_0_l, Z.lor_0_r.
  rewrite to_word_small by exact Hb. destruct a; reflexivity.
Qed.

Lemma merge_zero_length_witness :
  merge false code_main {| buf := 1; offset := 1 |} 90
  = Done ({| buf := to_word (Z.lor 1 (Z.shiftl (nth 0 (bits zero_codeword) 0) 1));
             offset := 1 |}, [])
  /\ merge false code_main {| buf := 1; offset := 1 |} 90
     = Done ({| buf := 1; offset := 1 |}, []).
Proof.
  destruct (merge_zero_length false code_main {| buf := 1; offset := 1 |} 90
              zero_codeword) as [Hrun Hsame].
  - split; cbn; rewrite ?W_eq; lia.
  - reflexivity.
  - reflexivity.
  - reflexivity.
  - split; [exact Hrun | apply Hsame; reflexivity].
Defined.

(** ** C6: the table lookup *)

(** C6 where plain [char] is signed: a byte in [128, 255] becomes a negative
    [sym], and [code[sym]] is outside the table. *)
Theorem lookup_signed_char_outside code b :
  128 <= b < 256 ->
  char_value true b = b - 256 /\ char_value true b < 0
  /\ lookup true code b = Undefined.
Proof.
  intros Hb. unfold lookup, char_value. cbn [andb].
  destruct (Z.leb_spec 128 b) as [_ | Hbad]; [| lia].
  repeat split; [lia |].
  unfold index. destruct (Z.ltb_spec (b - 256) 0) as [_ | Hbad]; [| lia].
  reflexivity.
Qed.

Lemma lookup_signed_char_outside_witness :
  char_value true 200 = 200 - 256 /\ char_value true 200 < 0
  /\ lookup true code_main 200 = Undefined.
Proof. apply (lookup_signed_char_outside code_main 200). lia. Defined.

(** Where plain [char] is unsigned the lookup is total on bytes. *)
Lemma lookup_unsigned_char_total code b :
  wf_code code = true -> 0 <= b < 256 -> completes (lookup false code b).
Proof.
  unfold wf_code. rewrite andb_true_iff, Z.eqb_eq. intros [Hsize _] Hb.
  unfold lookup, char_value. cbn [andb].
  apply index_in_range. rewrite Hsize. exact Hb.
Qed.

(** ** C7: number of words written *)





(** ** C8: don't-care bits *)

(** C8, as stated, fails: the table of [main] and [code_dirty] agree on
    every length and on every content bit below the length, and differ in
    the words written for the input ["A"]: [0x01] and [0xFF]. *)
Lemma dont_care_bits_counterexample :
  ~ (forall cs code1 code2 input,
       wf_code code1 = true -> wf_code code2 = true ->
       code_agree_below 0 code1 code2 = true ->
       encode cs code1 input = encode cs code2 input).
Proof.
  intros Hclaim.
  specialize (Hclaim false code_main code_dirty [65] eq_refl eq_refl eq_refl).
  vm_compute in Hclaim. discriminate.
Qed.

(** C8, amended: [encode] reads, and relies on, the content bits between
    [len] and [len + W]; it does not read beyond.  Two tables of type
    [code_t] that agree on the length of every entry and on every content
    bit at positions below [len + W] give the same result of [encode] on
    every input. *)
Theorem encode_reads_below_len_plus_W cs code1 code2 input :
  wf_code code1 = true -> wf_code code2 = true ->
  code_agree_below W code1 code2 = true ->
  encode cs code1 input = encode cs code2 input.
Proof.
  intros Hwf1 Hwf2 Hagree. rewrite !encode_unfold.
  destruct (fits_int input); [| reflexivity]. unfold pack_words.
  rewrite (pack_loop_agree cs code1 code2 input Hwf1 Hwf2 Hagree
             acc_init acc_init_typed).
  reflexivity.
Qed.

Lemma encode_reads_below_len_plus_W_witness :
  encode false code_main [65; 65; 66] = encode false code_far [65; 65; 66].
Proof.
  apply (encode_reads_below_len_plus_W false code_main code_far [65; 65; 66]);
    vm_compute; reflexivity.
Defined.

(** ** C9: the last word *)

(** C9, as stated, fails: lines 59-61 write the buffer and assign neither
    [buf] nor [offset], so the accumulator is not reset, and the same lines
    run once more would write the word again. *)
Lemma flush_reset_counterexample :
  fst (flush {| buf := 1; offset := 1 |}) <> acc_init
  /\ snd (flush {| buf := 1; offset := 1 |}) = [1]
  /\ snd (flush (fst (flush {| buf := 1; offset := 1 |}))) = [1].
Proof. repeat split. intros H. discriminate H. Qed.

(** C9, amended: lines 59-61 write the buffer as exactly one last word if
    and only if [offset > 0], write nothing otherwise, and leave the
    accumulator as it is; the accumulator is set to [buf = 0], [offset = 0]
    at the start of every call of [encode] (lines 27-28), so a call with
    nothing to merge writes nothing. *)
Theorem flush_writes_iff_pending :
  (forall a, snd (flush a) = [buf a] <-> 0 < offset a)
  /\ (forall a, snd (flush a) = [] <-> offset a <= 0)
  /\ (forall a, fst (flush a) = a)
  /\ (forall cs code, encode cs code [] = Done []).
Proof.
  repeat split; unfold flush in *; cbn [fst snd] in *.
  - destruct (Z.ltb_spec 0 (offset a)); [trivial | discriminate].
  - intros H. destruct (Z.ltb_spec 0 (offset a)); [reflexivity | lia].
  - destruct (Z.ltb_spec 0 (offset a)); [discriminate | trivial].
  - intros H. destruct (Z.ltb_spec 0 (offset a)); [lia | reflexivity].
Qed.

(** ** C10: the accumulator invariant *)

(** C10: for a table of type [code_t] whose content bits at positions
    [>= len] are zero, every state of the accumulator that the loop of
    [encode] reaches from [buf = 0], [offset = 0] has its offset in [0, W)
    and its buffer zero at every position [>= offset]; so the word that
    lines 59-61 write has zero padding bits. *)
Theorem accumulator_invariant cs code a :
  wf_code code = true ->
  dont_care_zero_code code = true ->
  reachable cs code a ->
  0 <= offset a < W
  /\ (forall k, offset a <= k -> Z.testbit (buf a) k = false)
  /\ (forall w, snd (flush a) = [w] ->
      forall k, offset a <= k -> Z.testbit w k = false).
Proof.
  intros Hwf Hdc Hreach.
  assert (Hok : acc_ok a).
  { induction Hreach as [| a b a' out _ IH Hm].
    - apply acc_init_ok.
    - destruct (merge_lookup _ _ _ _ _ Hm) as [cw Hlook].
      pose proof (wf_code_lookup _ _ _ _ Hwf Hlook) as Hcw.
      pose proof (dont_care_zero_lookup _ _ _ _ Hdc Hlook) as Hcwz.
      exact (merge_ok _ _ _ _ _ _ IH Hlook Hcw Hcwz Hm). }
  destruct Hok as [Ho Hhigh]. repeat split; try apply Ho; [exact Hhigh |].
  intros w Hw k Hk. unfold flush in Hw. cbn [snd] in Hw.
  destruct (0 <? offset a); [| discriminate].
  injection Hw as <-. apply Hhigh. exact Hk.
Qed.

Lemma accumulator_invariant_witness :
  0 <= offset {| buf := 3; offset := 2 |} < W
  /\ (forall k, offset {| buf := 3; offset := 2 |} <= k ->
      Z.testbit (buf {| buf := 3; offset := 2 |}) k = false)
  /\ (forall w, snd (flush {| buf := 3; offset := 2 |}) = [w] ->
      forall k, offset {| buf := 3; offset := 2 |} <= k ->
      Z.testbit w k = false).
Proof.
  apply (accumulator_invariant false code_main {| buf := 3; offset := 2 |}).
  - vm_compute; reflexivity.
  - vm_compute; reflexivity.
  - apply (reach_merge false code_main {| buf := 1; offset := 1 |} 65 _ []).
    + apply (reach_merge false code_main acc_init 65 _ []).
      * apply reach_init.
      * reflexivity.
    + reflexivity.
Defined.

(** * Further properties of the packing routine *)

(** ** When a merge completes *)

Lemma acc_typedb_typed a : acc_typedb a = true -> acc_typed a.
Proof.
  unfold acc_typedb, acc_typed.
  rewrite !andb_true_iff, !Z.leb_le, !Z.ltb_lt. tauto.
Qed.

Lemma acc_okb_ok a : acc_okb a = true -> acc_ok a.
Proof.
  unfold acc_okb, acc_ok.
  rewrite !andb_true_iff, !Z.leb_le, !Z.ltb_lt.
  intros [[[Ho1 Ho2] Hb1] Hb2]. split; [lia |].
  intros k Hk. apply (testbit_high (buf a) (offset a) k); lia.
Qed.



(** ** What one merge writes *)

(** X2: A merge that completes from an accumulator satisfying the invariant
    conserves the bit stream, whatever the don't-care bits of the codeword
    are: the bits of the words it writes, followed by the [offset] valid
    bits it leaves in the buffer, are the valid bits that were in the buffer
    followed by the [len] bits of the codeword. *)
Theorem merge_conserves_bits cs code a b cw a' out :
  wf_code code = true ->
  acc_okb a = true ->
  lookup cs code b = Done cw ->
  merge cs code a b = Done (a', out) ->
  words_bits out ++ acc_bits a' = acc_bits a ++ codeword_bits cw.
Proof.
  intros Hwf Hok Hlook Hrun.
  apply (merge_bits cs code a b cw (a', out)).
  - apply acc_okb_ok. exact Hok.
  - exact Hlook.
  - eapply wf_code_lookup; eassumption.
  - exact Hrun.
Qed.

Lemma merge_conserves_bits_witness :
  words_bits [236] ++ acc_bits {| buf := 31; offset := 2 |}
  = acc_bits {| buf := 12; offset := 5 |}
    ++ codeword_bits (mk_codeword 5 (255 :: repeat 0 31)).
Proof.
  apply (merge_conserves_bits false (assign 70 5 255 code_main)
           {| buf := 12; offset := 5 |} 70);
    vm_compute; reflexivity.
Defined.

(** X3: A merge that completes writes [(offset + len) / W] words, leaves the
    offset [(offset + len) mod W], and leaves values of the C types in the
    accumulator: for lengths up to [MAX_CODEWORD_BITS] the conversions
    between [int] and [size_t] of lines 38 and 55 lose nothing. *)
Theorem merge_step_count cs code a b cw a' out :
  wf_code code = true ->
  acc_typedb a = true ->
  lookup cs code b = Done cw ->
  merge cs code a b = Done (a', out) ->
  Z.of_nat (length out) = (offset a + len cw) / W
  /\ offset a' = (offset a + len cw) mod W
  /\ acc_typedb a' = true.
Proof.
  intros Hwf Hty Hlook Hrun. apply acc_typedb_typed in Hty.
  pose proof (wf_code_lookup _ _ _ _ Hwf Hlook) as Hcw.
  destruct (merge_typed cs code a b cw (a', out) Hty Hlook Hcw Hrun)
    as ([Ho Hb] & Hoff & Hn).
  cbn [fst snd] in *. repeat split; try assumption.
  unfold acc_typedb. rewrite !andb_true_iff, !Z.leb_le, !Z.ltb_lt. lia.
Qed.

Lemma merge_step_count_witness :
  Z.of_nat (length [140]) = (5 + 5) / W
  /\ offset {| buf := 3; offset := 2 |} = (5 + 5) mod W
  /\ acc_typedb {| buf := 3; offset := 2 |} = true.
Proof.
  apply (merge_step_count false code_main {| buf := 12; offset := 5 |} 70
           (mk_codeword 5 (28 :: repeat 0 31)));
    vm_compute; reflexivity.
Defined.

(** ** How calls compose *)

Lemma bind_pair_eta (r : result (accumulator * list Z)) :
  (r2 <- r ;; Done (fst r2, [] ++ snd r2)) = r.
Proof. destruct r as [[a out] |]; reflexivity. Qed.

Lemma pack_loop_concat cs code xs :
  forall a ys,
    pack_loop cs code a (xs ++ ys)
    = r1 <- pack_loop cs code a xs ;;
      r2 <- pack_loop cs code (fst r1) ys ;;
      Done (fst r2, snd r1 ++ snd r2).
Proof.
  induction xs as [| b xs IH]; intros a ys.
  - cbn [app pack_loop bind fst snd]. symmetry. apply bind_pair_eta.
  - cbn [app pack_loop].
    destruct (merge cs code a b) as [r0 |]; [| reflexivity].
    cbn [bind]. rewrite IH.
    destruct (pack_loop cs code (fst r0) xs) as [r1 |]; [| reflexivity].
    cbn [bind fst snd].
    destruct (pack_loop cs code (fst r1) ys) as [r2 |]; [| reflexivity].
    cbn [bind fst snd]. rewrite app_assoc. reflexivity.
Qed.

Lemma acc_ok_offset_zero a : acc_ok a -> offset a = 0 -> a = acc_init.
Proof.
  intros [_ Hhigh] Hzero. destruct a as [b o]. cbn [buf offset] in *.
  subst o. unfold acc_init. f_equal.
  apply Z.bits_inj'. intros k Hk. rewrite Z.testbit_0_l. apply Hhigh. exact Hk.
Qed.

Lemma encode_app_aligned cs code xs ys :
  wf_code code = true ->
  dont_care_zero_code code = true ->
  aligned cs code xs = true ->
  fits_int (xs ++ ys) = true ->
  encode cs code (xs ++ ys)
  = out1 <- encode cs code xs ;;
    out2 <- encode cs code ys ;;
    Done (out1 ++ out2).
Proof.
  intros Hwf Hdc Hal Hint.
  destruct (fits_int_app xs ys Hint) as [Hx Hy].
  rewrite !encode_unfold, Hint, Hx, Hy. unfold pack_words.
  rewrite pack_loop_concat.
  destruct (pack_loop cs code acc_init xs) as [r1 |] eqn:Hxs;
    [| reflexivity].
  cbn [bind].
  destruct (pack_loop_bits cs code xs Hwf Hdc acc_init r1 acc_init_ok Hxs)
    as (Hok & _).
  destruct (pack_loop_count cs code xs Hwf acc_init r1 acc_init_typed Hxs)
    as (_ & Hcount).
  assert (Hzero : offset (fst r1) = 0).
  { unfold aligned in Hal. apply Z.eqb_eq in Hal.
    change (offset acc_init) with 0 in Hcount. rewrite Z.add_0_l in Hcount.
    destruct Hok as [Ho _]. rewrite W_eq in *.
    rewrite <- Hcount in Hal.
    rewrite Z.add_comm, Z.mul_comm, Z.mod_add in Hal by lia.
    rewrite Z.mod_small in Hal by lia. exact Hal. }
  rewrite (acc_ok_offset_zero _ Hok Hzero).
  change (snd (flush acc_init)) with (@nil Z). rewrite app_nil_r.
  destruct (pack_loop cs code acc_init ys) as [r2 |]; [| reflexivity].
  cbn [bind fst snd]. rewrite app_assoc. reflexivity.
Qed.

(** X5: When the don't-care bits of the table are zero, the codewords of
    every chunk but the last fill whole words, and the chunks together have
    at most [INT_MAX] symbols, the loop of [main] (one call of [encode] for
    each chunk) writes exactly what one call of [encode] writes for the
    chunks joined: a call boundary is harmless where the bit stream is at a
    word boundary. *)
Theorem main_loop_aligned cs code chunks :
  wf_code code = true ->
  dont_care_zero_code code = true ->
  aligned_chunks cs code chunks = true ->
  fits_int (concat chunks) = true ->
  main_loop cs code chunks = encode cs code (concat chunks).
Proof.
  intros Hwf Hdc. induction chunks as [| chunk rest IH]; intros Hal Hint.
  - reflexivity.
  - destruct rest as [| chunk2 rest].
    + cbn [main_loop concat bind]. rewrite app_nil_r.
      destruct (encode cs code chunk) as [out |]; [| reflexivity].
      cbn [bind]. rewrite app_nil_r. reflexivity.
    + cbn [aligned_chunks] in Hal. apply andb_true_iff in Hal as [Hc Hrest].
      change (concat (chunk :: chunk2 :: rest))
        with (chunk ++ concat (chunk2 :: rest)) in *.
      destruct (fits_int_app _ _ Hint) as [_ Hint2].
      change (main_loop cs code (chunk :: chunk2 :: rest))
        with (out1 <- encode cs code chunk ;;
              out2 <- main_loop cs code (chunk2 :: rest) ;;
              Done (out1 ++ out2)).
      rewrite (IH Hrest Hint2).
      symmetry. apply encode_app_aligned; assumption.
Qed.

Lemma main_loop_aligned_witness :
  main_loop false code_main [[69; 67]; [68; 68]; [65; 66]]
  = encode false code_main (concat [[69; 67]; [68; 68]; [65; 66]]).
Proof.
  apply (main_loop_aligned false code_main [[69; 67]; [68; 68]; [65; 66]]);
    vm_compute; reflexivity.
Defined.

(** ** Symbols without a codeword *)

Lemma content_zero cw :
  wf_codeword cw = true -> dont_care_zero cw = true -> len cw = 0 ->
  content cw = 0.
Proof.
  intros Hwf Hdc Hlen. apply Z.bits_inj'. intros k Hk.
  rewrite Z.testbit_0_l. apply dont_care_zero_content; try assumption. lia.
Qed.

Lemma merge_unassigned_noop cs code a b cw :
  acc_typed a ->
  lookup cs code b = Done cw ->
  wf_codeword cw = true -> dont_care_zero cw = true -> len cw = 0 ->
  merge cs code a b = Done (a, []).
Proof.
  intros Hty Hlook Hwf Hdc Hlen.
  assert (Hfit : offset a + len cw < MAX_CODEWORD_BITS).
  { destruct Hty as [Ho _]. rewrite Hlen. unfold MAX_CODEWORD_BITS.
    rewrite W_eq in Ho. lia. }
  rewrite (merge_spec cs code a b cw Hty Hlook Hwf Hfit).
  destruct Hty as [Ho Hb].
  rewrite (content_zero cw Hwf Hdc Hlen), Hlen, Z.add_0_r.
  rewrite Z.div_small, Z.mod_small by exact Ho.
  unfold pending. rewrite Z.shiftl_0_l, Z.lor_0_r, Z.mul_0_r, Z.shiftr_0_r.
  rewrite to_word_small by exact Hb. destruct a; reflexivity.
Qed.

Lemma pack_loop_filter cs code input :
  wf_code code = true ->
  dont_care_zero_code code = true ->
  forallb (in_table cs code) input = true ->
  forall a, acc_typed a ->
    pack_loop cs code a (filter (assigned cs code) input)
    = pack_loop cs code a input.
Proof.
  intros Hwf Hdc. induction input as [| b rest IH]; intros Hin a Hty.
  - reflexivity.
  - cbn [forallb] in Hin. apply andb_true_iff in Hin as [Hb Hrest].
    unfold in_table in Hb.
    destruct (lookup cs code b) as [cw |] eqn:Hlook; [| discriminate].
    pose proof (wf_code_lookup _ _ _ _ Hwf Hlook) as Hcw.
    pose proof (dont_care_zero_lookup _ _ _ _ Hdc Hlook) as Hcwz.
    cbn [filter]. unfold assigned at 1. rewrite Hlook.
    destruct (Z.ltb_spec 0 (len cw)) as [Hpos | Hzero].
    + cbn [pack_loop].
      destruct (merge cs code a b) as [r1 |] eqn:Hm; [| reflexivity].
      cbn [bind].
      destruct (merge_typed _ _ _ _ _ _ Hty Hlook Hcw Hm) as (Hty1 & _).
      rewrite (IH Hrest _ Hty1). reflexivity.
    + assert (Hlen : len cw = 0).
      { destruct (wf_codeword_inv cw Hcw) as (Hl & _). lia. }
      cbn [pack_loop].
      rewrite (merge_unassigned_noop cs code a b cw Hty Hlook Hcw Hcwz Hlen).
      cbn [bind fst snd]. rewrite bind_pair_eta. apply IH; assumption.
Qed.

Lemma fits_int_filter (f : Z -> bool) input :
  fits_int input = true -> fits_int (filter f input) = true.
Proof.
  unfold fits_int. rewrite !Z.leb_le.
  pose proof (filter_length_le f input). lia.
Qed.

(** X6: A symbol whose entry has length 0 is packed as the empty codeword:
    when the don't-care bits of the table are zero, the input has at most
    [INT_MAX] symbols and every symbol of the input indexes an entry of the
    table, [encode] gives the same result on the input and on the input
    without its symbols of length 0. *)
Theorem encode_skips_unassigned cs code input :
  wf_code code = true ->
  dont_care_zero_code code = true ->
  forallb (in_table cs code) input = true ->
  fits_int input = true ->
  encode cs code (filter (assigned cs code) input) = encode cs code input.
Proof.
  intros Hwf Hdc Hin Hint. rewrite !encode_unfold.
  rewrite Hint, (fits_int_filter _ _ Hint). unfold pack_words.
  rewrite (pack_loop_filter cs code input Hwf Hdc Hin acc_init acc_init_typed).
  reflexivity.
Qed.

Lemma encode_skips_unassigned_witness :
  encode false code_main (filter (assigned false code_main) [90; 65; 0; 66; 255])
  = encode false code_main [90; 65; 0; 66; 255].
Proof.
  apply (encode_skips_unassigned false code_main [90; 65; 0; 66; 255]);
    vm_compute; reflexivity.
Defined.

(** ** Undefined and defined runs *)

Lemma lookup_high_byte_signed code b :
  128 <= b < 256 -> lookup true code b = Undefined.
Proof.
  intros Hb. unfold lookup, char_value. cbn [andb].
  destruct (Z.leb_spec 128 b) as [_ | Hbad]; [| lia].
  unfold index. destruct (Z.ltb_spec (b - 256) 0) as [_ | Hbad]; [| lia].
  reflexivity.
Qed.

Lemma pack_loop_high_byte_signed code b input :
  128 <= b < 256 -> In b input ->
  forall a, pack_loop true code a input = Undefined.
Proof.
  intros Hb. induction input as [| x rest IH]; intros Hin a.
  - destruct Hin.
  - cbn [pack_loop]. destruct Hin as [-> | Hin].
    + unfold merge. rewrite (lookup_high_byte_signed code b Hb). reflexivity.
    + destruct (merge true code a x) as [r1 |]; [| reflexivity].
      cbn [bind]. rewrite (IH Hin). reflexivity.
Qed.

(** X7: Where plain [char] is signed, one byte in [128, 255] anywhere in the
    input makes the whole call of [encode] undefined, whatever the table
    is: the byte becomes a negative index into [code] (lines 31 and 33). *)
Theorem encode_high_byte_signed code b input :
  128 <= b < 256 -> In b input -> encode true code input = Undefined.
Proof.
  intros Hb Hin. rewrite encode_unfold.
  destruct (fits_int input); [| reflexivity]. unfold pack_words.
  rewrite (pack_loop_high_byte_signed code b input Hb Hin). reflexivity.
Qed.

Lemma encode_high_byte_signed_witness :
  encode true code_main [65; 66; 233; 67] = Undefined.
Proof.
  apply (encode_high_byte_signed code_main 233 [65; 66; 233; 67]).
  - lia.
  - cbn. auto.
Defined.

Lemma lookup_plain_byte cs code b :
  wf_code code = true -> is_plain_byte cs b = true ->
  exists cw, lookup cs code b = Done cw.
Proof.
  unfold wf_code, is_plain_byte.
  rewrite !andb_true_iff, Z.eqb_eq, Z.leb_le, Z.ltb_lt.
  intros [Hsize _] [Hlo Hhi]. unfold lookup. apply index_in_range.
  rewrite Hsize. unfold CODE_ENTRIES, char_value.
  destruct cs; cbn [andb].
  - destruct (Z.leb_spec 128 b); lia.
  - lia.
Qed.

Lemma all_spare_lookup cs code b cw :
  all_spare code = true -> lookup cs code b = Done cw ->
  len cw <= MAX_CODEWORD_BITS - W.
Proof.
  unfold all_spare, lookup. intros Hall Hidx.
  apply index_Done in Hidx as [_ Hnth]. apply Z.leb_le.
  apply (forallb_nth_error _ _ _ _ Hall Hnth).
Qed.

Lemma pack_loop_completes cs code input :
  wf_code code = true ->
  all_spare code = true ->
  forallb (is_plain_byte cs) input = true ->
  forall a, acc_typed a -> completes (pack_loop cs code a input).
Proof.
  intros Hwf Hspare. induction input as [| b rest IH]; intros Hbytes a Hty.
  - eexists. reflexivity.
  - cbn [forallb] in Hbytes. apply andb_true_iff in Hbytes as [Hb Hrest].
    destruct (lookup_plain_byte cs code b Hwf Hb) as [cw Hlook].
    pose proof (wf_code_lookup _ _ _ _ Hwf Hlook) as Hcw.
    pose proof (all_spare_lookup _ _ _ _ Hspare Hlook) as Hlen.
    assert (Hfit : offset a + len cw < MAX_CODEWORD_BITS).
    { destruct Hty as [Ho _]. unfold MAX_CODEWORD_BITS in *.
      rewrite W_eq in *. lia. }
    pose proof (merge_spec cs code a b cw Hty Hlook Hcw Hfit) as Hrun.
    cbv zeta in Hrun.
    destruct (merge_typed _ _ _ _ _ _ Hty Hlook Hcw Hrun) as (Hty' & _).
    destruct (IH Hrest _ Hty') as [r2 Hr2].
    rewrite (pack_loop_cons _ _ _ _ _ _ Hrun), Hr2.
    eexists. reflexivity.
Qed.

(** X8: For a table of type [code_t] in which every length is at most
    [MAX_CODEWORD_BITS - W], a call of [encode] completes, with no array
    indexed outside its bounds, no undefined shift and no overflow of the
    counter, on every input of at most [INT_MAX] symbols whose bytes are
    not negative as plain [char]: every byte where [char] is unsigned,
    bytes below 128 where it is signed. *)
Theorem encode_completes cs code input :
  wf_code code = true ->
  all_spare code = true ->
  forallb (is_plain_byte cs) input = true ->
  fits_int input = true ->
  completes (encode cs code input).
Proof.
  intros Hwf Hspare Hbytes Hint.
  destruct (pack_loop_completes cs code input Hwf Hspare Hbytes
              acc_init acc_init_typed) as [r Hrun].
  rewrite encode_unfold, Hint. unfold pack_words. rewrite Hrun.
  eexists. reflexivity.
Qed.

Lemma encode_completes_witness :
  completes (encode false code_dirty [0; 65; 200; 255; 65; 70]).
Proof.
  apply (encode_completes false code_dirty [0; 65; 200; 255; 65; 70]);
    vm_compute; reflexivity.
Defined.

(** ** Unique decoding *)

Lemma prefixb_app p l : prefixb p (p ++ l) = true.
Proof.
  induction p as [| x p IH]; [reflexivity |].
  cbn [app prefixb]. rewrite Bool.eqb_reflx, IH. reflexivity.
Qed.

Lemma app_eq_prefixb (l1 l2 r1 r2 : list bool) :
  l1 ++ r1 = l2 ++ r2 -> prefixb l1 l2 = true \/ prefixb l2 l1 = true.
Proof.
  revert l2. induction l1 as [| x l1 IH]; intros l2 Heq.
  - left. reflexivity.
  - destruct l2 as [| y l2]; [right; reflexivity |].
    cbn [app] in Heq. injection Heq as -> Heq.
    cbn [prefixb]. rewrite Bool.eqb_reflx. cbn [andb].
    apply IH. exact Heq.
Qed.

Lemma lookup_nth cs code b cw :
  lookup cs code b = Done cw ->
  0 <= char_value cs b < Z.of_nat (length code)
  /\ nth (Z.to_nat (char_value cs b)) code zero_codeword = cw.
Proof.
  unfold lookup. intros Hidx. split.
  - apply index_Done in Hidx. tauto.
  - apply index_nth. exact Hidx.
Qed.

Lemma char_value_byte cs b :
  is_byte b = true -> 0 <= char_value cs b -> char_value cs b = b.
Proof.
  unfold is_byte, char_value. rewrite andb_true_iff, Z.leb_le, Z.ltb_lt.
  intros [Hlo Hhi]. destruct cs; cbn [andb]; [| reflexivity].
  destruct (Z.leb_spec 128 b); [lia | reflexivity].
Qed.

Lemma prefix_free_symbols cs code a b cwa cwb :
  prefix_free code = true ->
  is_byte a = true -> is_byte b = true ->
  lookup cs code a = Done cwa -> lookup cs code b = Done cwb ->
  0 < len cwa -> 0 < len cwb ->
  prefixb (codeword_bits cwa) (codeword_bits cwb) = true ->
  a = b.
Proof.
  intros Hpf Ha Hb Hla Hlb Hpa Hpb Hpre.
  destruct (lookup_nth _ _ _ _ Hla) as [Hia Hna].
  destruct (lookup_nth _ _ _ _ Hlb) as [Hib Hnb].
  unfold prefix_free in Hpf. rewrite forallb_forall in Hpf.
  assert (Hina : In (Z.to_nat (char_value cs a)) (seq 0 (length code)))
    by (apply in_seq; lia).
  assert (Hinb : In (Z.to_nat (char_value cs b)) (seq 0 (length code)))
    by (apply in_seq; lia).
  specialize (Hpf _ Hina). rewrite forallb_forall in Hpf.
  specialize (Hpf _ Hinb).
  cbv zeta in Hpf. rewrite Hna, Hnb, Hpre in Hpf.
  apply Z.ltb_lt in Hpa, Hpb. rewrite Hpa, Hpb in Hpf.
  cbn [negb] in Hpf. rewrite !orb_false_r in Hpf.
  assert (Heq : Z.to_nat (char_value cs a) = Z.to_nat (char_value cs b))
    by (apply Nat.eqb_eq; exact Hpf).
  rewrite <- (char_value_byte cs a Ha) by lia.
  rewrite <- (char_value_byte cs b Hb) by lia.
  lia.
Qed.

Lemma stream_bits_injective cs code :
  prefix_free code = true ->
  forall xs ys p q,
    forallb is_byte xs = true -> forallb is_byte ys = true ->
    forallb (assigned cs code) xs = true ->
    forallb (assigned cs code) ys = true ->
    length xs = length ys ->
    stream_bits cs code xs ++ p = stream_bits cs code ys ++ q ->
    xs = ys.
Proof.
  intros Hpf. induction xs as [| a xs IH]; intros ys p q Hbx Hby Hax Hay Hlen Heq.
  - destruct ys; [reflexivity | discriminate].
  - destruct ys as [| b ys]; [discriminate |].
    cbn [forallb] in Hbx, Hby, Hax, Hay.
    apply andb_true_iff in Hbx as [Ha Hbx].
    apply andb_true_iff in Hby as [Hb Hby].
    apply andb_true_iff in Hax as [Haa Hax].
    apply andb_true_iff in Hay as [Hab Hay].
    destruct (assigned_lookup _ _ _ Haa) as (cwa & Hla & Hpa).
    destruct (assigned_lookup _ _ _ Hab) as (cwb & Hlb & Hpb).
    cbn [stream_bits flat_map] in Heq. rewrite Hla, Hlb in Heq.
    fold (stream_bits cs code xs) in Heq. fold (stream_bits cs code ys) in Heq.
    rewrite <- !app_assoc in Heq.
    assert (Hab' : a = b).
    { destruct (app_eq_prefixb _ _ _ _ Heq) as [Hpre | Hpre].
      - exact (prefix_free_symbols cs code a b cwa cwb
                 Hpf Ha Hb Hla Hlb Hpa Hpb Hpre).
      - symmetry.
        exact (prefix_free_symbols cs code b a cwb cwa
                 Hpf Hb Ha Hlb Hla Hpb Hpa Hpre). }
    subst b. rewrite Hla in Hlb. apply Done_inj in Hlb. subst cwb.
    apply app_inv_head in Heq. f_equal.
    apply (IH ys p q); try assumption. cbn [length] in Hlen. lia.
Qed.

Lemma encode_stream cs code input out :
  wf_code code = true ->
  dont_care_zero_code code = true ->
  encode cs code input = Done out ->
  exists pad, words_bits out = stream_bits cs code input ++ pad.
Proof.
  intros Hwf Hdc Hrun. rewrite encode_unfold in Hrun.
  destruct (fits_int input); [| discriminate]. unfold pack_words in Hrun.
  destruct (pack_loop cs code acc_init input) as [r |] eqn:Hloop;
    [| discriminate].
  cbn [bind] in Hrun. apply Done_inj in Hrun. subst out.
  destruct (pack_loop_bits cs code input Hwf Hdc acc_init r acc_init_ok Hloop)
    as (Hok & Hbits).
  change (acc_bits acc_init) with (@nil bool) in Hbits. cbn [app] in Hbits.
  rewrite words_bits_app. unfold flush. cbn [snd].
  destruct (Z.ltb_spec 0 (offset (fst r))) as [Hpos | Hzero].
  - exists (repeat false (Z.to_nat (W - offset (fst r)))).
    cbn [words_bits flat_map]. rewrite app_nil_r.
    rewrite (word_bits_acc _ Hok), app_assoc, Hbits. reflexivity.
  - exists []. cbn [words_bits flat_map]. rewrite <- Hbits, acc_bits_eq.
    replace (Z.to_nat (offset (fst r))) with 0%nat
      by (destruct Hok as [Ho _]; lia).
    cbn [bits_of seq map]. rewrite !app_nil_r. reflexivity.
Qed.

(** X9: The output of [encode] determines the input once the number of symbols
    is known: for a prefix-free table whose don't-care bits are zero, two
    inputs of bytes with the same number of symbols, every symbol having a
    codeword of positive length, for which [encode] writes the same words,
    are the same input. *)
Theorem encode_injective cs code xs ys out :
  wf_code code = true ->
  dont_care_zero_code code = true ->
  prefix_free code = true ->
  forallb is_byte xs = true -> forallb is_byte ys = true ->
  forallb (assigned cs code) xs = true ->
  forallb (assigned cs code) ys = true ->
  length xs = length ys ->
  encode cs code xs = Done out ->
  encode cs code ys = Done out ->
  xs = ys.
Proof.
  intros Hwf Hdc Hpf Hbx Hby Hax Hay Hlen Hx Hy.
  destruct (encode_stream cs code xs out Hwf Hdc Hx) as [p Hp].
  destruct (encode_stream cs code ys out Hwf Hdc Hy) as [q Hq].
  apply (stream_bits_injective cs code Hpf xs ys p q); try assumption.
  rewrite <- Hp, <- Hq. reflexivity.
Qed.

Lemma encode_injective_witness :
  [69; 70; 68; 67; 65; 66] = [69; 70; 68; 67; 65; 66].
Proof.
  apply (encode_injective false code_main
           [69; 70; 68; 67; 65; 66] [69; 70; 68; 67; 65; 66] [140; 19; 10]);
    vm_compute; reflexivity.
Defined.

(** Without the number of symbols the input is not determined: a trailing
    ['C'] (three zero bits) cannot be told from padding. *)
Example encode_trailing_zero_codeword (cs : bool) :
  encode cs code_main [65] = encode cs code_main [65; 67].
Proof. destruct cs; reflexivity. Qed.

(** ** Signedness of [char] *)

Lemma merge_plain_byte code a b :
  is_plain_byte true b = true ->
  merge true code a b = merge false code a b.
Proof.
  unfold is_plain_byte. rewrite andb_true_iff, Z.leb_le, Z.ltb_lt.
  intros [Hlo Hhi]. unfold merge, lookup, char_value. cbn [andb].
  destruct (Z.leb_spec 128 b); [lia | reflexivity].
Qed.

Lemma pack_loop_plain_bytes code input :
  forallb (is_plain_byte true) input = true ->
  forall a, pack_loop true code a input = pack_loop false code a input.
Proof.
  induction input as [| b rest IH]; intros Hbytes a; [reflexivity |].
  cbn [forallb] in Hbytes. apply andb_true_iff in Hbytes as [Hb Hrest].
  cbn [pack_loop]. rewrite (merge_plain_byte code a b Hb).
  destruct (merge false code a b) as [r1 |]; [| reflexivity].
  cbn [bind]. rewrite (IH Hrest). reflexivity.
Qed.

(** X10: On an input of bytes below 128 the result of [encode] does not depend
    on whether plain [char] is signed. *)
Theorem encode_plain_bytes_portable code input :
  forallb (is_plain_byte true) input = true ->
  encode true code input = encode false code input.
Proof.
  intros Hbytes. rewrite !encode_unfold.
  destruct (fits_int input); [| reflexivity]. unfold pack_words.
  rewrite (pack_loop_plain_bytes code input Hbytes). reflexivity.
Qed.

Lemma encode_plain_bytes_portable_witness :
  encode true code_main [69; 70; 0; 127; 65] = encode false code_main [69; 70; 0; 127; 65].
Proof.
  apply (encode_plain_bytes_portable code_main [69; 70; 0; 127; 65]).
  reflexivity.
Defined.
